(** * bsdiff4 patch container codec (bsdiff4/format.py)

    A shallow embedding of the container codec of [bsdiff4/format.py]
    (Python 3 semantics) and the properties of its read and write paths.

    The module talks to three collaborators that are not part of
    [format.py]: the C extension [bsdiff4.core] (integer codec, diff and
    patch engines), the standard [bz2] module and the third-party [brotli]
    package.  The development is parametric in them; a small reference
    instance at the end of the definitions is used for closed examples. *)

From Stdlib.Strings Require Import Byte String.
From Stdlib Require Import List ZArith Lia Bool.
Import ListNotations.
Local Open Scope Z_scope.

(* ================================================================= *)
(** ** Bytes objects *)

Definition bytes := list byte.

Fixpoint bytes_eqb (a b : bytes) : bool :=
  match a, b with
  | [], [] => true
  | x :: a', y :: b' => Byte.eqb x y && bytes_eqb a' b'
  | _, _ => false
  end.

(** Python slice [b[i:j]] for [0 <= i <= j]; never raises, clips at the end. *)
Definition slice (b : bytes) (i j : nat) : bytes := firstn (j - i) (skipn i b).

Definition byte_to_Z (b : byte) : Z := Z.of_N (Byte.to_N b).

Definition len (b : bytes) : Z := Z.of_nat (length b).

(** [range(0, stop, step)] for a positive [step]. *)
Definition range0 (stop step : nat) : list nat :=
  map (fun k => (k * step)%nat) (seq 0 ((stop + step - 1) / step)%nat).

(* ================================================================= *)
(** ** Exceptions and results *)

Inductive exn : Type :=
| NotABsdiff4Patch                 (* ValueError("Not a BSDIFF4 patch") *)
| InvalidCompressionType (v : Z)   (* ValueError: v is not a valid CompressionType *)
| IndexError                       (* index out of range *)
| AttributeError                   (* object has no attribute 'decompress' *)
| TypeError                        (* descriptor 'decompress' doesn't apply to 'bytes' *)
| Int64Error                       (* raised inside core.decode_int64 *)
| OverflowError                    (* raised inside core.encode_int64 *)
| BrotliError                      (* brotli.error *)
| EngineError.                     (* raised inside core.patch *)

Definition result (A : Type) : Type := (exn + A)%type.

Definition Ok {A} (a : A) : result A := inr a.
Definition Raise {A} (e : exn) : result A := inl e.

Definition rbind {A B} (r : result A) (k : A -> result B) : result B :=
  match r with
  | inl e => inl e
  | inr a => k a
  end.

Definition of_option {A} (e : exn) (o : option A) : result A :=
  match o with
  | Some a => Ok a
  | None => Raise e
  end.

(* ================================================================= *)
(** ** Input streams

    [fi] is a binary stream that is only ever read front to back
    ([io.BytesIO] in [patch]).  The state keeps the bytes not yet consumed
    and, as a trace, the size argument of every [read] call made so far
    ([None] for the argument-less [fi.read()]). *)

Record stream : Type := mkStream {
  unread : bytes;
  reads : list (option Z)
}.

Definition BytesIO (content : bytes) : stream := mkStream content [].

(** A computation over the stream that may raise. *)
Definition M (A : Type) : Type := stream -> result A * stream.

Definition ret {A} (a : A) : M A := fun fi => (Ok a, fi).
Definition lift {A} (r : result A) : M A := fun fi => (r, fi).

Definition bind {A B} (m : M A) (k : A -> M B) : M B :=
  fun fi =>
    match m fi with
    | (inl e, fi') => (inl e, fi')
    | (inr a, fi') => k a fi'
    end.

Declare Scope codec_scope.
Delimit Scope codec_scope with codec.

Notation "x <- c1 ;; c2" := (bind c1 (fun x => c2))
  (at level 61, c1 at next level, right associativity) : codec_scope.
Notation "' pat <- c1 ;; c2" :=
  (bind c1 (fun x => match x with pat => c2 end))
  (at level 61, pat pattern, c1 at next level, right associativity) : codec_scope.

Local Open Scope codec_scope.

(** [fi.read(size)]: up to [size] bytes; everything that is left when
    [size] is negative or omitted. *)
Definition read_count (size : option Z) (available : nat) : nat :=
  match size with
  | None => available
  | Some n => if n <? 0 then available else Z.to_nat n
  end.

Definition fi_read (size : option Z) : M bytes :=
  fun fi =>
    let n := read_count size (length (unread fi)) in
    (Ok (firstn n (unread fi)),
     mkStream (skipn n (unread fi)) (reads fi ++ [size])).

(** Left-to-right evaluation of a list comprehension whose body may raise. *)
Fixpoint mapM {A B} (f : A -> result B) (l : list A) : result (list B) :=
  match l with
  | [] => Ok []
  | x :: l' =>
      rbind (f x) (fun y => rbind (mapM f l') (fun ys => Ok (y :: ys)))
  end.

(* ================================================================= *)
(** ** Module constants *)

Definition BSDIFF_MAGIC : bytes := list_byte_of_string "BSDIFF40"%string.
Definition BSDF2_MAGIC : bytes := list_byte_of_string "BSDF2"%string.

(* ================================================================= *)
(** ** Compression registry *)

Inductive CompressionType : Type :=
| NoCompression   (* = 0 *)
| BZ2             (* = 1 *)
| Brotli.         (* = 2 *)

Definition CompressionType_value (t : CompressionType) : Z :=
  match t with
  | NoCompression => 0
  | BZ2 => 1
  | Brotli => 2
  end.

(** The enum call [CompressionType(v)]: lookup by value, [ValueError] when
    no member has that value. *)
Definition CompressionType_of_value (v : Z) : result CompressionType :=
  if v =? 0 then Ok NoCompression
  else if v =? 1 then Ok BZ2
  else if v =? 2 then Ok Brotli
  else Raise (InvalidCompressionType v).

(** The three objects the registry hands out. *)
Inductive decompressor : Type :=
| IdentityLambda          (* lambda x: x *)
| BZ2DecompressorClass    (* the class bz2.BZ2Decompressor, not an instance *)
| BrotliModule.           (* the module brotli *)

(** The argument is a member of the enum (the enum call has already
    rejected every other value), so one of the three tests succeeds and the
    final [else: raise ValueError("Unknown compression type")] is never
    reached. *)
Definition create_bsdf2_decompressor (type : CompressionType) : decompressor :=
  match type with
  | NoCompression => IdentityLambda
  | BZ2 => BZ2DecompressorClass
  | Brotli => BrotliModule
  end.

(** A control tuple: three signed 64-bit integers. *)
Definition control : Type := (Z * Z * Z)%type.

(** What [read_patch] returns: a 4-tuple in either mode. *)
Inductive patch_result : Type :=
| HeaderOnly (len_control len_diff len_dst : Z) (tcontrol : list control)
| Full (len_dst : Z) (tcontrol : list control) (bdiff bextra : bytes).

(* ================================================================= *)
(** ** The integer codec of [bsdiff4.core]

    [core.encode_int64] and [core.decode_int64] live in the C extension.
    The interface fixes that an integer is encoded on 8 bytes; the byte
    layout itself is left to the instance.  [encode_int64] is the encoding
    of the signed 64-bit integers; the range check that the extension
    makes before encoding is [core_encode_int64] below. *)

Class Int64Codec : Type := {
  encode_int64 : Z -> bytes;
  decode_int64 : bytes -> option Z;
  encode_int64_length : forall n, length (encode_int64 n) = 8%nat
}.

(** [brotli.decompress] of the third-party package; [None] when it raises
    [brotli.error]. *)
Class BrotliLib : Type := {
  brotli_decompress : bytes -> option bytes
}.

(** [bz2.compress] of the standard library. *)
Class Bz2Lib : Type := {
  bz2_compress : bytes -> bytes
}.

(** The diff and patch engines of [bsdiff4.core]: [core.diff(src, dst)]
    returns the control tuples, the diff block and the extra block;
    [core.patch(src, len_dst, tcontrol, bdiff, bextra)] rebuilds the
    target or raises. *)
Class CoreEngine : Type := {
  core_diff : bytes -> bytes -> list control * bytes * bytes;
  core_patch : bytes -> Z -> list control -> bytes -> bytes -> result bytes
}.

Section Codec.

Context {codec : Int64Codec} {brotli : BrotliLib} {bz2 : Bz2Lib}
        {engine : CoreEngine}.

Definition core_decode_int64 (b : bytes) : result Z :=
  of_option Int64Error (decode_int64 b).

(* ----------------------------------------------------------------- *)
(** *** Attribute lookup and call of [.decompress] *)

(** [d.decompress]: a plain function has no such attribute; on the class
    the lookup gives the unbound method, whose call with a bytes object in
    the place of [self] raises [TypeError]; on the module it gives the
    one-shot function [brotli.decompress]. *)
Definition getattr_decompress (d : decompressor)
  : result (bytes -> result bytes) :=
  match d with
  | IdentityLambda => Raise AttributeError
  | BZ2DecompressorClass => Ok (fun _ => Raise TypeError)
  | BrotliModule => Ok (fun data => of_option BrotliError (brotli_decompress data))
  end.

(** [d.decompress(fi.read(size))]: the callee is looked up first, then the
    argument is evaluated, then the call is made. *)
Definition decompress_read (d : decompressor) (size : option Z) : M bytes :=
  method <- lift (getattr_decompress d) ;;
  data <- fi_read size ;;
  lift (method data).

(* ----------------------------------------------------------------- *)
(** *** [read_patch] *)

(** [magic[k]] followed by the enum call and the registry lookup. *)
Definition selector (magic : bytes) (k : nat) : result decompressor :=
  rbind (of_option IndexError (nth_error magic k)) (fun b =>
  rbind (CompressionType_of_value (byte_to_Z b)) (fun t =>
  Ok (create_bsdf2_decompressor t))).

(** Lines 71-84: the choice of the three decompressors from the magic. *)
Definition dispatch (magic : bytes)
  : result (decompressor * decompressor * decompressor) :=
  if bytes_eqb (firstn 4 magic) (firstn 4 BSDF2_MAGIC) then
    rbind (selector magic 5) (fun control_decompressor =>
    rbind (selector magic 6) (fun diff_decompressor =>
    rbind (selector magic 7) (fun extra_decompressor =>
    Ok (control_decompressor, diff_decompressor, extra_decompressor))))
  else if bytes_eqb (firstn 7 magic) (firstn 7 BSDIFF_MAGIC) then
    Ok (BZ2DecompressorClass, BZ2DecompressorClass, BZ2DecompressorClass)
  else
    Raise NotABsdiff4Patch.

(** One element of the list comprehension of lines 92-99. *)
Definition control_tuple (bcontrol : bytes) (i : nat) : result control :=
  rbind (core_decode_int64 (slice bcontrol i (i + 8))) (fun x =>
  rbind (core_decode_int64 (slice bcontrol (i + 8) (i + 16))) (fun y =>
  rbind (core_decode_int64 (slice bcontrol (i + 16) (i + 24))) (fun z =>
  Ok (x, y, z)))).

Definition parse_control (bcontrol : bytes) : result (list control) :=
  mapM (control_tuple bcontrol) (range0 (length bcontrol) 24).

Definition read_int64 : M Z :=
  b <- fi_read (Some 8) ;;
  lift (core_decode_int64 b).

(** Lines 90-105: the three blocks, once the length fields are known. *)
Definition read_payload
    (decompressors : decompressor * decompressor * decompressor)
    (header_only : bool) (len_control len_diff len_dst : Z) : M patch_result :=
  let '(control_decompressor, diff_decompressor, extra_decompressor) :=
    decompressors in
  (* read the control header *)
  bcontrol <- decompress_read control_decompressor (Some len_control) ;;
  tcontrol <- lift (parse_control bcontrol) ;;
  if header_only then
    ret (HeaderOnly len_control len_diff len_dst tcontrol)
  else
    (* read the diff and extra blocks *)
    bdiff <- decompress_read diff_decompressor (Some len_diff) ;;
    bextra <- decompress_read extra_decompressor None ;;
    ret (Full len_dst tcontrol bdiff bextra).

(** Lines 86-105: everything after the choice of the decompressors. *)
Definition read_blocks
    (decompressors : decompressor * decompressor * decompressor)
    (header_only : bool) : M patch_result :=
  (* length headers *)
  len_control <- read_int64 ;;
  len_diff <- read_int64 ;;
  len_dst <- read_int64 ;;
  read_payload decompressors header_only len_control len_diff len_dst.

Definition read_patch (header_only : bool) : M patch_result :=
  magic <- fi_read (Some 8) ;;
  decompressors <- lift (dispatch magic) ;;
  read_blocks decompressors header_only.

(* ----------------------------------------------------------------- *)
(** *** [write_patch]

    The output object [fo] is represented by the bytes written to it so
    far; [fo.write(b)] appends. *)

Definition write (fo : bytes) (b : bytes) : bytes := fo ++ b.

(** The elements of a control tuple, in iteration order. *)
Definition items (c : control) : list Z :=
  let '(x, y, z) := c in [x; y; z].

(** What the loop of lines 53-55 leaves in [faux] when every integer is
    encoded. *)
Definition flatten_control (tcontrol : list control) : bytes :=
  fold_left
    (fun faux c =>
       fold_left (fun faux x => write faux (encode_int64 x)) (items c) faux)
    tcontrol [].

(** [core.encode_int64(x)]: the extension takes a signed 64-bit integer
    and raises [OverflowError] for any other. *)
Definition in_int64 (x : Z) : bool := (- 2 ^ 63 <=? x) && (x <? 2 ^ 63).

Definition core_encode_int64 (x : Z) : result bytes :=
  if in_int64 x then Ok (encode_int64 x) else Raise OverflowError.

(** A computation that writes to an output stream and may raise; the
    state is what the stream holds, also when the computation raises. *)
Definition W (A : Type) : Type := bytes -> result A * bytes.

Definition wret {A} (a : A) : W A := fun fo => (Ok a, fo).
Definition wlift {A} (r : result A) : W A := fun fo => (r, fo).

Definition wbind {A B} (m : W A) (k : A -> W B) : W B :=
  fun fo =>
    match m fo with
    | (inl e, fo') => (inl e, fo')
    | (inr a, fo') => k a fo'
    end.

(** [fo.write(b)]. *)
Definition fo_write (b : bytes) : W unit := fun fo => (Ok tt, write fo b).

(** A [for] loop whose body writes. *)
Fixpoint for_each {A} (l : list A) (body : A -> W unit) : W unit :=
  match l with
  | [] => wret tt
  | x :: l' => wbind (body x) (fun _ => for_each l' body)
  end.

(** [fo.write(core.encode_int64(x))]. *)
Definition write_int64 (x : Z) : W unit :=
  wbind (wlift (core_encode_int64 x)) fo_write.

(** Lines 53-55, on the stream [faux]. *)
Definition write_control (tcontrol : list control) : W unit :=
  for_each tcontrol (fun c => for_each (items c) write_int64).

(** [faux = BytesIO()], the writes, then [faux.getvalue()]. *)
Definition getvalue_after (w : W unit) : result bytes :=
  match w [] with
  | (inl e, _) => inl e
  | (inr _, faux) => Ok faux
  end.

(** Lines 48-64.  The writes to [fo] happen one after the other; when
    [core.encode_int64] raises, in the loop over the tuples or on one of
    the three length fields, what was written before stays in [fo]. *)
Definition write_patch (len_dst : Z) (tcontrol : list control)
    (bdiff bextra : bytes) : W unit :=
  wbind (fo_write BSDIFF_MAGIC) (fun _ =>
  (* write control tuples as series of offts *)
  wbind (wlift (getvalue_after (write_control tcontrol))) (fun faux =>
  (* compress each block *)
  let bcontrol := bz2_compress faux in
  let bdiff := bz2_compress bdiff in
  let bextra := bz2_compress bextra in
  wbind (for_each [len bcontrol; len bdiff; len_dst] write_int64) (fun _ =>
  wbind (fo_write bcontrol) (fun _ =>
  wbind (fo_write bdiff) (fun _ =>
  fo_write bextra))))).

(* ----------------------------------------------------------------- *)
(** *** [diff] and [patch] *)

Definition diff (src_bytes dst_bytes : bytes) : result bytes :=
  let '(tcontrol, bdiff, bextra) := core_diff src_bytes dst_bytes in
  getvalue_after (write_patch (len dst_bytes) tcontrol bdiff bextra).

(** [core.patch(src_bytes, *read_patch(BytesIO(patch_bytes)))].  The call
    uses the default [header_only=False]; a header-only tuple would not be
    a valid argument list for the engine. *)
Definition patch (src_bytes patch_bytes : bytes) : result bytes :=
  match fst (read_patch false (BytesIO patch_bytes)) with
  | inl e => inl e
  | inr (Full len_dst tcontrol bdiff bextra) =>
      core_patch src_bytes len_dst tcontrol bdiff bextra
  | inr (HeaderOnly _ _ _ _) => Raise TypeError
  end.

End Codec.

(* ================================================================= *)
(** ** The file-level functions

    The store maps the absolute path of every existing regular file to
    its content; a path names the file found at its [os.path.abspath].
    Directories, permissions and links are outside the model: every file
    of the store can be read and rewritten, and a file can be created at
    any path. *)

(** [os.path.abspath]. *)
Class OsPath : Type := {
  abspath : string -> string
}.

(** The allocator behind the reads of a buffered file: [read(n)] obtains a
    buffer of [n] bytes before it reads, and raises [MemoryError] when
    [n] is [too_large] to be had, however few bytes the file holds.  The
    8 bytes of a header read are always had. *)
Class FileReads : Type := {
  too_large : Z -> bool;
  header_read_fits : too_large 8 = false
}.

Module Files.

Definition store : Type := string -> option bytes.

(** The store with the file at [p] holding [content]. *)
Definition put (fs : store) (p : string) (content : bytes) : store :=
  fun q => if String.eqb q p then Some content else fs q.

Inductive os_exn : Type :=
| FileNotFoundError (p : string)  (* open() of a file that does not exist *)
| ReadLengthError                 (* ValueError: read length must be
                                     non-negative or -1 *)
| MemoryError                     (* no buffer of the size of a read *)
| Raised (e : exn).               (* raised by the container codec *)

(** A computation over the store that may raise. *)
Definition IO (A : Type) : Type := store -> (os_exn + A) * store.

Definition io_ret {A} (a : A) : IO A := fun fs => (inr a, fs).

Definition io_bind {A B} (m : IO A) (k : A -> IO B) : IO B :=
  fun fs =>
    match m fs with
    | (inl e, fs') => (inl e, fs')
    | (inr a, fs') => k a fs'
    end.

Definition io_lift {A} (r : os_exn + A) : IO A := fun fs => (r, fs).

Declare Scope io_scope.
Delimit Scope io_scope with io.

Notation "x <- c1 ;; c2" := (io_bind c1 (fun x => c2))
  (at level 61, c1 at next level, right associativity) : io_scope.

Local Open Scope io_scope.

Section Operations.

Context {ospath : OsPath} {filereads : FileReads} {codec : Int64Codec}
        {brotli : BrotliLib} {bz2 : Bz2Lib} {engine : CoreEngine}.

(** An open file is known by the absolute path it was opened at. *)
Definition handle : Type := string.

(** [open(path, "rb")] and [open(path, "r+b")]: the file must exist. *)
Definition open_rb (path : string) : IO handle :=
  fun fs =>
    match fs (abspath path) with
    | Some _ => (inr (abspath path), fs)
    | None => (inl (FileNotFoundError path), fs)
    end.

(** [open(path, "wb")]: the file is created, or emptied if it exists. *)
Definition open_wb (path : string) : IO handle :=
  fun fs => (inr (abspath path), put fs (abspath path) []).

(** What the open file holds at this moment. *)
Definition content (h : handle) : IO bytes :=
  fun fs =>
    match fs h with
    | Some data => (inr data, fs)
    | None => (inr [], fs)
    end.

(** [fo.write(data)] at position 0: the first bytes are overwritten, the
    file grows if [data] is longer. *)
Definition write_at_start (h : handle) (data : bytes) : IO nat :=
  fun fs =>
    match fs h with
    | Some old => (inr (length data), put fs h (data ++ skipn (length data) old))
    | None => (inr (length data), put fs h data)
    end.

(** [fo.truncate()] with the position at [pos]. *)
Definition truncate (h : handle) (pos : nat) : IO unit :=
  fun fs =>
    match fs h with
    | Some old => (inr tt, put fs h (firstn pos old))
    | None => (inr tt, fs)
    end.

(** [read_data(path)]. *)
Definition read_data (path : string) : IO bytes :=
  fi <- open_rb path ;;
  content fi.

(** A [read] with this size argument raises on a file: a size below -1
    is refused, and a size that is too large finds no buffer. *)
Definition negative_read (size : option Z) : bool :=
  match size with
  | Some n => n <? -1
  | None => false
  end.

Definition oversized_read (size : option Z) : bool :=
  match size with
  | Some n => too_large n
  | None => false
  end.

Definition failing_read (size : option Z) : bool :=
  negative_read size || oversized_read size.

(** [read_patch(fi)] on a file opened with [open(patch_path, "rb")] that
    holds [data].  A buffered file reader returns what [io.BytesIO] returns
    on every [read], except that a size below -1 raises [ValueError] and a
    size that is too large raises [MemoryError], where [io.BytesIO] returns
    what is left; the run on the file is therefore the run on [io.BytesIO]
    up to the first read of such a size, which the trace of the run
    shows. *)
Definition read_patch_file (data : bytes) : os_exn + patch_result :=
  let '(r, fi) := read_patch false (BytesIO data) in
  match find failing_read (reads fi) with
  | Some size =>
      if negative_read size then inl ReadLengthError else inl MemoryError
  | None =>
      match r with
      | inl e => inl (Raised e)
      | inr parsed => inr parsed
      end
  end.

(** [core.patch(data, *parsed)]. *)
Definition engine_patch (data : bytes) (parsed : patch_result)
  : os_exn + bytes :=
  match parsed with
  | Full len_dst tcontrol bdiff bextra =>
      match core_patch data len_dst tcontrol bdiff bextra with
      | inl e => inl (Raised e)
      | inr out => inr out
      end
  | HeaderOnly _ _ _ _ => inl (Raised TypeError)
  end.

(** [core.patch(data, *read_patch(fi))] for a patch file that holds
    [patch_data]. *)
Definition apply_patch (data patch_data : bytes) : os_exn + bytes :=
  match read_patch_file patch_data with
  | inl e => inl e
  | inr parsed => engine_patch data parsed
  end.

(** The same expression on the open patch file [fi], which is read at this
    point. *)
Definition patch_from (data : bytes) (fi : handle) : IO bytes :=
  patch_data <- content fi ;;
  io_lift (apply_patch data patch_data).

(** [write_patch(fo, ...)] on the open file [fo]: what it writes stays in
    the file, also when it raises. *)
Definition write_patch_to (fo : handle) (len_dst : Z)
    (tcontrol : list control) (bdiff bextra : bytes) : IO unit :=
  written <- content fo ;;
  fun fs =>
    let '(r, out) := write_patch len_dst tcontrol bdiff bextra written in
    (match r with
     | inl e => inl (Raised e)
     | inr _ => inr tt
     end, put fs fo out).

Definition file_diff (src_path dst_path patch_path : string) : IO unit :=
  src <- read_data src_path ;;
  dst <- read_data dst_path ;;
  fo <- open_wb patch_path ;;
  let '(tcontrol, bdiff, bextra) := core_diff src dst in
  write_patch_to fo (len dst) tcontrol bdiff bextra.

Definition file_patch_inplace (path patch_path : string) : IO unit :=
  fi <- open_rb patch_path ;;
  fo <- open_rb path ;;
  data <- content fo ;;
  (* fo.seek(0) *)
  out <- patch_from data fi ;;
  pos <- write_at_start fo out ;;
  truncate fo pos.

Definition file_patch (src_path dst_path patch_path : string) : IO unit :=
  if String.eqb (abspath dst_path) (abspath src_path) then
    file_patch_inplace src_path patch_path
  else
    fi <- open_rb patch_path ;;
    fo <- open_wb dst_path ;;
    data <- read_data src_path ;;
    out <- patch_from data fi ;;
    written <- write_at_start fo out ;;
    io_ret tt.

End Operations.

End Files.


(* ================================================================= *)
(** ** A reference instance of the collaborators

    Used to run the codec on concrete containers. *)

Module Reference.

Definition byte_of_Z (z : Z) : byte :=
  match Byte.of_N (Z.to_N (z mod 256)) with
  | Some b => b
  | None => x00
  end.

(** Modelled from the spec: the Integer Codec [encodeInt64(n: int64) -> 8
    bytes], whose implementation (the C extension [bsdiff4.core]) is not
    among the sources.  The spec leaves the byte layout open; this is the
    sign-and-magnitude little-endian layout of the bsdiff format. *)
Definition offtout (x : Z) : bytes :=
  let y := Z.abs x in
  map byte_of_Z
    [y; y / 2 ^ 8; y / 2 ^ 16; y / 2 ^ 24; y / 2 ^ 32; y / 2 ^ 40; y / 2 ^ 48;
     Z.lor ((y / 2 ^ 56) mod 128) (if x <? 0 then 128 else 0)].

(** Modelled from the spec: the Integer Codec [decodeInt64(bytes8) ->
    int64], inverse of [offtout]; an argument that is not 8 bytes long is
    rejected. *)
Definition offtin (b : bytes) : option Z :=
  match map byte_to_Z b with
  | [b0; b1; b2; b3; b4; b5; b6; b7] =>
      let y := Z.land b7 127 in
      let y := y * 256 + b6 in
      let y := y * 256 + b5 in
      let y := y * 256 + b4 in
      let y := y * 256 + b3 in
      let y := y * 256 + b2 in
      let y := y * 256 + b1 in
      let y := y * 256 + b0 in
      Some (if Z.land b7 128 =? 0 then y else - y)
  | _ => None
  end.

#[export] Instance codec : Int64Codec := {|
  encode_int64 := offtout;
  decode_int64 := offtin;
  encode_int64_length := fun _ => eq_refl
|}.

(** A partial model of [brotli.decompress] (RFC 7932): it decodes the two
    one-byte empty streams (window 16 and window 22) and the streams made
    of one uncompressed meta-block of at most 65536 bytes with a 22-bit
    window followed by the empty last meta-block.  On every other input
    the model fails, also where the real decoder would not; the examples
    rely only on its successes and on the rejection of the empty input. *)
Definition stored_decompress (data : bytes) : option bytes :=
  match data with
  | [b] =>
      if (byte_to_Z b =? 6) || (byte_to_Z b =? 59) then Some [] else None
  | b0 :: b1 :: b2 :: body =>
      if (Z.land (byte_to_Z b0) 127 =? 11) && (128 <=? byte_to_Z b2) then
        let mlen :=
          S (Z.to_nat (byte_to_Z b0 / 128 + 2 * byte_to_Z b1
                       + 512 * (byte_to_Z b2 - 128))) in
        if bytes_eqb (skipn mlen body) [x03] then Some (firstn mlen body)
        else None
      else None
  | _ => None
  end.

#[export] Instance brotli : BrotliLib := {|
  brotli_decompress := stored_decompress
|}.

(** Example containers. *)

Definition container (magic : bytes) (len_control len_diff len_dst : Z)
    (blocks : bytes) : bytes :=
  magic ++ offtout len_control ++ offtout len_diff ++ offtout len_dst
        ++ blocks.

Definition hello : bytes := list_byte_of_string "hello"%string.

(** The stored brotli stream of a payload of 24 bytes, and of 5 bytes. *)
Definition stored24 (payload : bytes) : bytes :=
  [x8b; x0b; x80] ++ payload ++ [x03].
Definition stored5 (payload : bytes) : bytes :=
  [x0b; x02; x80] ++ payload ++ [x03].

(** What [bz2.compress(b'')] returns. *)
Definition bz2_empty : bytes :=
  list_byte_of_string "BZh9"%string
  ++ [x17; x72; x45; x38; x50; x90; x00; x00; x00; x00].

(** Three brotli channels: one control tuple [(0, 5, 0)], an empty diff
    block and the extra block [hello]; the target is 5 bytes long. *)
Definition brotli_container : bytes :=
  container (list_byte_of_string "BSDF2"%string ++ [x02; x02; x02]) 28 1 5
    (stored24 (offtout 0 ++ offtout 5 ++ offtout 0) ++ [x06] ++ stored5 hello).

(** A control block of 5 bytes. *)
Definition ragged_container : bytes :=
  container (list_byte_of_string "BSDF2"%string ++ [x02; x02; x02]) 9 1 5
    (stored5 hello ++ [x06] ++ stored5 hello).


(** The legacy container of three empty bz2 streams. *)
Definition legacy_container : bytes :=
  container BSDIFF_MAGIC 14 14 0 (bz2_empty ++ bz2_empty ++ bz2_empty).

(** Brotli control channel, BZ2 diff channel. *)
Definition block_diff_container : bytes :=
  container (list_byte_of_string "BSDF2"%string ++ [x02; x01; x02]) 1 14 0
    ([x06] ++ bz2_empty ++ [x06]).

(** All three channels stored without compression. *)
Definition identity_container : bytes :=
  container (list_byte_of_string "BSDF2"%string ++ [x00; x00; x00]) 0 0 5
    hello.

(** Selector 7 for the diff channel. *)
Definition bad_selector_container : bytes :=
  container (list_byte_of_string "BSDF2"%string ++ [x02; x07; x02]) 1 1 0
    [x06; x06; x06].

(** The brotli container with the fifth byte of the magic changed. *)
Definition near_versioned_container : bytes :=
  container (list_byte_of_string "BSDF9"%string ++ [x02; x02; x02]) 28 1 5
    (stored24 (offtout 0 ++ offtout 5 ++ offtout 0) ++ [x06] ++ stored5 hello).

(** Neither magic. *)
Definition gzip_file : bytes :=
  [x1f; x8b; x08; x00; x00; x00; x00; x00; x00; x03; x03; x00; x00; x00;
   x00; x00; x00; x00; x00; x00].

(** The parts of [brotli_container]. *)
Definition brotli_magic : bytes :=
  list_byte_of_string "BSDF2"%string ++ [x02; x02; x02].
Definition control_buffer : bytes := offtout 0 ++ offtout 5 ++ offtout 0.
Definition control_block : bytes := stored24 control_buffer.
Definition extra_block : bytes := stored5 hello.

(** The other collaborators, for the examples of the file-level
    functions. *)

(** [os.path.abspath] with the working directory [/work], on paths
    without [.] and [..] components. *)
Definition abspath_work (p : string) : string :=
  if String.prefix "/" p then p else String.append "/work/" p.

#[export] Instance ospath : OsPath := {|
  abspath := abspath_work
|}.

(** A process whose address space has 47 bits: no buffer of [2^47] bytes
    or more is to be had. *)
Definition beyond_address_space (n : Z) : bool := 2 ^ 47 <=? n.

#[export] Instance filereads : FileReads := {|
  too_large := beyond_address_space;
  header_read_fits := eq_refl
|}.

(** [bz2.compress] as far as the examples need it: they compress the empty
    input only, for which this is the real stream. *)
Definition compress_empty (data : bytes) : bytes := bz2_empty.

#[export] Instance bz2 : Bz2Lib := {|
  bz2_compress := compress_empty
|}.

(** An engine for the examples: the diff that copies nothing and stores
    the whole target in the extra block, and the bspatch replay of a
    control stream (add the next [x] diff bytes to the old bytes at the
    old position, copy the next [y] extra bytes, move the old position by
    [x + z]). *)
Definition stored_diff (src dst : bytes) : list control * bytes * bytes :=
  match dst with
  | [] => ([], [], [])
  | _ => ([(0, len dst, 0)], [], dst)
  end.

Definition old_byte (old : bytes) (pos : Z) : Z :=
  if (0 <=? pos) && (pos <? len old)
  then byte_to_Z (nth (Z.to_nat pos) old x00)
  else 0.

Fixpoint replay (old : bytes) (oldpos : Z) (tcontrol : list control)
    (bdiff bextra : bytes) : option bytes :=
  match tcontrol with
  | [] =>
      match bdiff, bextra with
      | [], [] => Some []
      | _, _ => None
      end
  | (x, y, z) :: tcontrol' =>
      if (x <? 0) || (y <? 0) || (len bdiff <? x) || (len bextra <? y)
      then None
      else
        let added :=
          map (fun jd => byte_of_Z (byte_to_Z (snd jd)
                                    + old_byte old (oldpos + Z.of_nat (fst jd))))
              (combine (seq 0 (Z.to_nat x)) (firstn (Z.to_nat x) bdiff)) in
        match replay old (oldpos + x + z) tcontrol'
                (skipn (Z.to_nat x) bdiff) (skipn (Z.to_nat y) bextra) with
        | Some tail => Some (added ++ firstn (Z.to_nat y) bextra ++ tail)
        | None => None
        end
  end.

Definition replay_patch (old : bytes) (len_dst : Z) (tcontrol : list control)
    (bdiff bextra : bytes) : result bytes :=
  match replay old 0 tcontrol bdiff bextra with
  | Some out => if len out =? len_dst then Ok out else Raise EngineError
  | None => Raise EngineError
  end.

#[export] Instance engine : CoreEngine := {|
  core_diff := stored_diff;
  core_patch := replay_patch
|}.

(** A store for the examples: two empty files, an old file, a file that
    will be overwritten, and two patch files. *)
Definition example_store : Files.store :=
  Files.put (Files.put (Files.put (Files.put (Files.put (Files.put
    (fun _ => None)
    "/work/a.bin" [])
    "/work/b.bin" [])
    "/work/old.bin" (list_byte_of_string "HELLO, old"%string))
    "/work/out.bin" (list_byte_of_string "previous content"%string))
    "/work/legacy.patch" legacy_container)
    "/work/brotli.patch" brotli_container.

End Reference.


(* ================================================================= *)
(** ** Vocabulary of the statements *)

(** The two tests of the format dispatch, on the 8-byte header prefix. *)
Definition is_versioned (magic : bytes) : Prop :=
  firstn 4 magic = firstn 4 BSDF2_MAGIC.

Definition is_legacy (magic : bytes) : Prop :=
  firstn 7 magic = firstn 7 BSDIFF_MAGIC.

(** The spec's words for the same two tests: the header matches the
    versioned magic, which is the 5 bytes [BSDF2], or the legacy magic,
    which is the 8 bytes [BSDIFF40]. *)
Definition matches_versioned_magic (magic : bytes) : Prop :=
  firstn 5 magic = BSDF2_MAGIC.

Definition matches_legacy_magic (magic : bytes) : Prop :=
  firstn 8 magic = BSDIFF_MAGIC.

(** The errors that the steps of [read_patch] after the dispatch can
    raise, by the objects that serve the three channels: the error of the
    integer decoder, [brotli.error], [AttributeError] when some channel is
    served by the lambda and [TypeError] when some channel is served by the
    class.  None of them is an error of truncation. *)
Definition raised_by_blocks
    (ds : decompressor * decompressor * decompressor) (e : exn) : Prop :=
  let '(dc, dd, de) := ds in
  e = Int64Error \/ e = BrotliError
  \/ (e = AttributeError /\ In IdentityLambda [dc; dd; de])
  \/ (e = TypeError /\ In BZ2DecompressorClass [dc; dd; de]).

(** The errors of the dispatch itself. *)
Definition raised_by_dispatch (e : exn) : Prop :=
  e = NotABsdiff4Patch \/ e = IndexError
  \/ exists v, e = InvalidCompressionType v.

(** The header byte at offset [k] is the value of the member [t]. *)
Definition selects (magic : bytes) (k : nat) (t : CompressionType) : Prop :=
  exists sel, nth_error magic k = Some sel
              /\ byte_to_Z sel = CompressionType_value t.

(** The stream after the 8-byte read of the magic. *)
Definition after_magic (fi : stream) : stream :=
  mkStream (skipn 8 (unread fi)) (reads fi ++ [Some 8]).

(** What a [fi.read(size)] returns and the stream it leaves. *)
Definition read_data (size : option Z) (fi : stream) : bytes :=
  firstn (read_count size (length (unread fi))) (unread fi).

Definition after_read (size : option Z) (fi : stream) : stream :=
  mkStream (skipn (read_count size (length (unread fi))) (unread fi))
           (reads fi ++ [size]).

(** The stream after the magic and the three length fields. *)
Definition after_header (fi : stream) : stream :=
  after_magic (after_magic (after_magic (after_magic fi))).

(** The decompressed control block as [read_patch] obtains it: the steps
    of [read_patch] up to the decompression of the control channel. *)
Definition read_control_block {codec : Int64Codec} {brotli : BrotliLib}
  : M bytes :=
  magic <- fi_read (Some 8) ;;
  '(control_decompressor, _, _) <- lift (dispatch magic) ;;
  len_control <- read_int64 ;;
  _ <- read_int64 ;;
  _ <- read_int64 ;;
  decompress_read control_decompressor (Some len_control).



(** The integers of a control tuple are signed 64-bit integers. *)
Definition tuple_int64 (c : control) : bool := forallb in_int64 (items c).

(** The integers of a list up to the first one that is not a signed
    64-bit integer. *)
Fixpoint encodable_prefix (l : list Z) : list Z :=
  match l with
  | [] => []
  | x :: l' => if in_int64 x then x :: encodable_prefix l' else []
  end.

(** Every integer that [write_patch] encodes is a signed 64-bit integer:
    the elements of the control tuples, the lengths of the compressed
    control and diff blocks, and [len_dst]. *)
Definition encodable {codec : Int64Codec} {bz2 : Bz2Lib}
    (len_dst : Z) (tcontrol : list control) (bdiff : bytes) : bool :=
  forallb tuple_int64 tcontrol
  && forallb in_int64
       [Z.of_nat (length (bz2_compress (flatten_control tcontrol)));
        Z.of_nat (length (bz2_compress bdiff)); len_dst].

(** The 24 bytes of one control tuple. *)
Definition encode_tuple {codec : Int64Codec} (c : control) : bytes :=
  let '(x, y, z) := c in
  encode_int64 x ++ encode_int64 y ++ encode_int64 z.

(** The integers of a control tuple survive encoding and decoding. *)
Definition round_trips {codec : Int64Codec} (c : control) : Prop :=
  let '(x, y, z) := c in
  decode_int64 (encode_int64 x) = Some x
  /\ decode_int64 (encode_int64 y) = Some y
  /\ decode_int64 (encode_int64 z) = Some z.

(* ================================================================= *)
(** ** Basic facts *)

(** Reduce [rbind] and [of_option] on results that are already values. *)
Ltac result_step := cbn [rbind of_option Ok Raise].

Lemma bytes_eqb_eq (a b : bytes) : bytes_eqb a b = true <-> a = b.
Proof.
  revert b; induction a as [|x a IH]; intros [|y b]; simpl;
    try (split; [discriminate | discriminate]); try tauto.
  rewrite andb_true_iff, IH. split.
  - intros [Hxy ->]. apply Byte.byte_dec_bl in Hxy. now subst.
  - intros [= -> ->]. split; [now apply Byte.byte_dec_lb | reflexivity].
Qed.

Lemma bytes_eqb_neq (a b : bytes) : bytes_eqb a b = false <-> a <> b.
Proof.
  rewrite <- bytes_eqb_eq. destruct (bytes_eqb a b); split; congruence.
Qed.

Lemma legacy_not_versioned (magic : bytes) :
  is_legacy magic -> ~ is_versioned magic.
Proof.
  unfold is_legacy, is_versioned. intros Hl Hv.
  assert (H4 : firstn 4 (firstn 7 magic) = firstn 4 magic).
  { rewrite firstn_firstn. reflexivity. }
  rewrite Hl, Hv in H4. discriminate H4.
Qed.

Section Properties.

Context {codec : Int64Codec} {brotli : BrotliLib}.

Lemma fi_read_magic (fi : stream) :
  fi_read (Some 8) fi = (Ok (firstn 8 (unread fi)), after_magic fi).
Proof. reflexivity. Qed.

Lemma read_patch_dispatch (header_only : bool) (fi : stream) :
  read_patch header_only fi =
  match dispatch (firstn 8 (unread fi)) with
  | inl e => (inl e, after_magic fi)
  | inr decompressors => read_blocks decompressors header_only (after_magic fi)
  end.
Proof.
  unfold read_patch, bind, lift. rewrite fi_read_magic. cbn.
  destruct (dispatch (firstn 8 (unread fi))); reflexivity.
Qed.

Lemma dispatch_unknown (magic : bytes) :
  ~ is_versioned magic -> ~ is_legacy magic ->
  dispatch magic = Raise NotABsdiff4Patch.
Proof.
  intros Hv Hl. unfold dispatch.
  apply bytes_eqb_neq in Hv. apply bytes_eqb_neq in Hl.
  rewrite Hv, Hl. reflexivity.
Qed.

Lemma CompressionType_of_value_member (t : CompressionType) :
  CompressionType_of_value (CompressionType_value t) = Ok t.
Proof. destruct t; reflexivity. Qed.

Lemma CompressionType_of_value_invalid (v : Z) :
  ~ 0 <= v <= 2 ->
  CompressionType_of_value v = Raise (InvalidCompressionType v).
Proof.
  intros Hv. unfold CompressionType_of_value.
  destruct (Z.eqb_spec v 0); [lia|].
  destruct (Z.eqb_spec v 1); [lia|].
  destruct (Z.eqb_spec v 2); [lia|]. reflexivity.
Qed.

Lemma CompressionType_of_value_valid (v : Z) :
  0 <= v <= 2 -> exists t, CompressionType_of_value v = Ok t.
Proof.
  intros Hv. unfold CompressionType_of_value.
  destruct (Z.eqb_spec v 0); [now eexists|].
  destruct (Z.eqb_spec v 1); [now eexists|].
  destruct (Z.eqb_spec v 2); [now eexists|]. lia.
Qed.

Lemma selector_selects (magic : bytes) (k : nat) (t : CompressionType) :
  selects magic k t -> selector magic k = Ok (create_bsdf2_decompressor t).
Proof.
  intros (sel & Hnth & Hval). unfold selector.
  rewrite Hnth. result_step.
  rewrite Hval, CompressionType_of_value_member. reflexivity.
Qed.

Lemma selector_invalid (magic : bytes) (k : nat) (sel : byte) :
  nth_error magic k = Some sel -> ~ 0 <= byte_to_Z sel <= 2 ->
  selector magic k = Raise (InvalidCompressionType (byte_to_Z sel)).
Proof.
  intros Hnth Hval. unfold selector.
  rewrite Hnth. result_step.
  rewrite (CompressionType_of_value_invalid _ Hval). reflexivity.
Qed.

(** A selector byte that is present either resolves or is rejected by the
    enum call. *)
Lemma selector_present (magic : bytes) (k : nat) :
  (k < length magic)%nat ->
  (exists d, selector magic k = Ok d)
  \/ (exists v, ~ 0 <= v <= 2
                /\ selector magic k = Raise (InvalidCompressionType v)).
Proof.
  intros Hk. destruct (nth_error magic k) as [sel|] eqn:Hnth.
  - destruct (Z_le_dec 0 (byte_to_Z sel)) as [H0|H0];
      [destruct (Z_le_dec (byte_to_Z sel) 2) as [H2|H2]|].
    + left. destruct (CompressionType_of_value_valid (byte_to_Z sel))
        as [t Ht]; [lia|].
      unfold selector. rewrite Hnth. result_step. rewrite Ht. now eexists.
    + right. exists (byte_to_Z sel). split; [lia|].
      apply selector_invalid; [assumption | lia].
    + right. exists (byte_to_Z sel). split; [lia|].
      apply selector_invalid; [assumption | lia].
  - apply nth_error_None in Hnth. lia.
Qed.

Lemma dispatch_versioned (magic : bytes) :
  is_versioned magic ->
  dispatch magic =
  rbind (selector magic 5) (fun control_decompressor =>
  rbind (selector magic 6) (fun diff_decompressor =>
  rbind (selector magic 7) (fun extra_decompressor =>
  Ok (control_decompressor, diff_decompressor, extra_decompressor)))).
Proof.
  intros Hv. unfold dispatch. apply bytes_eqb_eq in Hv. rewrite Hv.
  reflexivity.
Qed.

Lemma dispatch_legacy (magic : bytes) :
  is_legacy magic ->
  dispatch magic =
  Ok (BZ2DecompressorClass, BZ2DecompressorClass, BZ2DecompressorClass).
Proof.
  intros Hl. unfold dispatch.
  pose proof (legacy_not_versioned _ Hl) as Hv.
  apply bytes_eqb_neq in Hv. apply bytes_eqb_eq in Hl. rewrite Hv, Hl.
  reflexivity.
Qed.

(** C6.  When the 8-byte prefix passes the versioned test and one of the
    bytes at offsets 5, 6, 7 is present with a value outside {0, 1, 2},
    [read_patch] raises the [ValueError] of the enum call
    [CompressionType(v)] for a value [v] outside {0, 1, 2} (the first such
    selector), in either mode, right after the read of the magic: no
    decompressor, in particular not the identity one, is ever applied. *)
Theorem read_patch_unsupported_selector
    (header_only : bool) (fi : stream) (k : nat) (sel : byte) :
  is_versioned (firstn 8 (unread fi)) ->
  (5 <= k <= 7)%nat ->
  nth_error (firstn 8 (unread fi)) k = Some sel ->
  ~ 0 <= byte_to_Z sel <= 2 ->
  exists v, ~ 0 <= v <= 2
    /\ read_patch header_only fi =
       (Raise (InvalidCompressionType v), after_magic fi).
Proof.
  intros Hv Hk Hnth Hsel. rewrite read_patch_dispatch.
  rewrite (dispatch_versioned _ Hv).
  set (magic := firstn 8 (unread fi)) in *.
  assert (Hlen : (k < length magic)%nat).
  { apply nth_error_Some. congruence. }
  pose proof (selector_invalid _ _ _ Hnth Hsel) as Hbad.
  destruct (selector_present magic 5) as [[d5 H5]|(v & Hv5 & H5)]; [lia| |].
  2:{ exists v. split; [assumption|]. rewrite H5. reflexivity. }
  destruct (Nat.eq_dec k 5) as [->|Hk5];
    [rewrite H5 in Hbad; discriminate Hbad|].
  destruct (selector_present magic 6) as [[d6 H6]|(v & Hv6 & H6)]; [lia| |].
  2:{ exists v. split; [assumption|]. rewrite H5, H6. reflexivity. }
  destruct (Nat.eq_dec k 6) as [->|Hk6];
    [rewrite H6 in Hbad; discriminate Hbad|].
  assert (k = 7%nat) as -> by lia.
  exists (byte_to_Z sel). split; [assumption|].
  rewrite H5, H6, Hbad. reflexivity.
Qed.

(** C7.  Format dispatch on the 8-byte prefix: when it passes the versioned
    test, the bytes at offsets 5, 6 and 7 are looked up in the enum and the
    registry one by one and the resulting decompressors serve the control,
    diff and extra channels in that order; when it passes the legacy test,
    the three channels get the registry's entry for BZ2 whatever the
    bytes are. *)
Theorem read_patch_format_dispatch (header_only : bool) (fi : stream) :
  (is_versioned (firstn 8 (unread fi)) ->
   forall tc td te : CompressionType,
     selects (firstn 8 (unread fi)) 5 tc ->
     selects (firstn 8 (unread fi)) 6 td ->
     selects (firstn 8 (unread fi)) 7 te ->
     dispatch (firstn 8 (unread fi)) =
       Ok (create_bsdf2_decompressor tc, create_bsdf2_decompressor td,
           create_bsdf2_decompressor te)
     /\ read_patch header_only fi =
        read_blocks
          (create_bsdf2_decompressor tc, create_bsdf2_decompressor td,
           create_bsdf2_decompressor te) header_only (after_magic fi))
  /\ (is_legacy (firstn 8 (unread fi)) ->
      dispatch (firstn 8 (unread fi)) =
        Ok (create_bsdf2_decompressor BZ2, create_bsdf2_decompressor BZ2,
            create_bsdf2_decompressor BZ2)
      /\ read_patch header_only fi =
         read_blocks
           (create_bsdf2_decompressor BZ2, create_bsdf2_decompressor BZ2,
            create_bsdf2_decompressor BZ2) header_only (after_magic fi)).
Proof.
  split.
  - intros Hv tc td te Hc Hd He.
    assert (Hdis : dispatch (firstn 8 (unread fi)) =
                   Ok (create_bsdf2_decompressor tc,
                       create_bsdf2_decompressor td,
                       create_bsdf2_decompressor te)).
    { rewrite (dispatch_versioned _ Hv).
      rewrite (selector_selects _ _ _ Hc), (selector_selects _ _ _ Hd),
        (selector_selects _ _ _ He). reflexivity. }
    split; [exact Hdis|]. rewrite read_patch_dispatch, Hdis. reflexivity.
  - intros Hl. pose proof (dispatch_legacy _ Hl) as Hdis.
    split; [exact Hdis|]. rewrite read_patch_dispatch, Hdis. reflexivity.
Qed.

(* ----------------------------------------------------------------- *)
(** *** Running the block reader *)

Lemma fi_read_eq (size : option Z) (fi : stream) :
  fi_read size fi = (Ok (read_data size fi), after_read size fi).
Proof. reflexivity. Qed.

Lemma read_int64_eq (fi : stream) :
  read_int64 fi =
  (core_decode_int64 (firstn 8 (unread fi)), after_magic fi).
Proof.
  unfold read_int64, bind, lift. rewrite fi_read_magic. reflexivity.
Qed.

Lemma decompress_read_eq (d : decompressor) (size : option Z) (fi : stream) :
  decompress_read d size fi =
  match getattr_decompress d with
  | inl e => (inl e, fi)
  | inr method => (method (read_data size fi), after_read size fi)
  end.
Proof.
  unfold decompress_read, bind, lift.
  destruct (getattr_decompress d) as [e|method]; [reflexivity|].
  rewrite fi_read_eq. reflexivity.
Qed.

(** Only the brotli module decompresses anything. *)
Lemma decompress_read_ok (d : decompressor) (size : option Z)
    (fi fi' : stream) (data : bytes) :
  decompress_read d size fi = (Ok data, fi') ->
  d = BrotliModule
  /\ brotli_decompress (read_data size fi) = Some data
  /\ fi' = after_read size fi.
Proof.
  rewrite decompress_read_eq. destruct d; cbn; try discriminate.
  destruct (brotli_decompress (read_data size fi)) as [out|];
    cbn; [|discriminate].
  intros [= -> <-]. auto.
Qed.

Lemma bind_ok {A B} (m : M A) (k : A -> M B) (fi fi' : stream) (y : B) :
  bind m k fi = (Ok y, fi') ->
  exists x fi1, m fi = (Ok x, fi1) /\ k x fi1 = (Ok y, fi').
Proof.
  unfold bind. destruct (m fi) as [[e|x] fi1]; [discriminate|].
  intros H. now exists x, fi1.
Qed.

Lemma bind_run {A B} (m : M A) (k : A -> M B) (fi fi1 : stream) (x : A) :
  m fi = (Ok x, fi1) -> bind m k fi = k x fi1.
Proof. unfold bind. now intros ->. Qed.

Lemma bind_raise {A B} (m : M A) (k : A -> M B) (fi fi1 : stream) (e : exn) :
  m fi = (Raise e, fi1) -> bind m k fi = (Raise e, fi1).
Proof. unfold bind. now intros ->. Qed.

Lemma read_int64_ok (fi fi' : stream) (n : Z) :
  read_int64 fi = (Ok n, fi') ->
  decode_int64 (firstn 8 (unread fi)) = Some n /\ fi' = after_magic fi.
Proof.
  rewrite read_int64_eq. unfold core_decode_int64.
  destruct (decode_int64 (firstn 8 (unread fi))); cbn; [|discriminate].
  intros [= -> <-]. auto.
Qed.

Lemma read_int64_run (fi : stream) (n : Z) :
  decode_int64 (firstn 8 (unread fi)) = Some n ->
  read_int64 fi = (Ok n, after_magic fi).
Proof.
  intros H. rewrite read_int64_eq. unfold core_decode_int64. now rewrite H.
Qed.

Lemma read_blocks_run
    (ds : decompressor * decompressor * decompressor) (header_only : bool)
    (fi : stream) (len_control len_diff len_dst : Z) :
  decode_int64 (firstn 8 (unread fi)) = Some len_control ->
  decode_int64 (firstn 8 (unread (after_magic fi))) = Some len_diff ->
  decode_int64 (firstn 8 (unread (after_magic (after_magic fi))))
    = Some len_dst ->
  read_blocks ds header_only fi =
  read_payload ds header_only len_control len_diff len_dst
    (after_magic (after_magic (after_magic fi))).
Proof.
  intros Hc Hd Ht. unfold read_blocks.
  rewrite (bind_run _ _ _ _ _ (read_int64_run _ _ Hc)).
  rewrite (bind_run _ _ _ _ _ (read_int64_run _ _ Hd)).
  rewrite (bind_run _ _ _ _ _ (read_int64_run _ _ Ht)).
  reflexivity.
Qed.

(** [read_blocks] raises [Int64Error] when a length field does not decode
    and otherwise goes on to the payload. *)
Lemma read_blocks_cases
    (ds : decompressor * decompressor * decompressor) (header_only : bool)
    (fi : stream) :
  fst (read_blocks ds header_only fi) = Raise Int64Error
  \/ exists len_control len_diff len_dst,
       decode_int64 (firstn 8 (unread fi)) = Some len_control
       /\ decode_int64 (firstn 8 (unread (after_magic fi))) = Some len_diff
       /\ decode_int64 (firstn 8 (unread (after_magic (after_magic fi))))
          = Some len_dst
       /\ read_blocks ds header_only fi =
          read_payload ds header_only len_control len_diff len_dst
            (after_magic (after_magic (after_magic fi))).
Proof.
  destruct (decode_int64 (firstn 8 (unread fi))) as [lc|] eqn:Hc.
  2:{ left. unfold read_blocks, bind.
      rewrite read_int64_eq. unfold core_decode_int64. rewrite Hc.
      reflexivity. }
  destruct (decode_int64 (firstn 8 (unread (after_magic fi))))
    as [ld|] eqn:Hd.
  2:{ left. unfold read_blocks.
      rewrite (bind_run _ _ _ _ _ (read_int64_run _ _ Hc)).
      unfold bind. rewrite read_int64_eq. unfold core_decode_int64.
      rewrite Hd. reflexivity. }
  destruct (decode_int64 (firstn 8 (unread (after_magic (after_magic fi)))))
    as [lt|] eqn:Ht.
  2:{ left. unfold read_blocks.
      rewrite (bind_run _ _ _ _ _ (read_int64_run _ _ Hc)).
      rewrite (bind_run _ _ _ _ _ (read_int64_run _ _ Hd)).
      unfold bind. rewrite read_int64_eq. unfold core_decode_int64.
      rewrite Ht. reflexivity. }
  right. exists lc, ld, lt. repeat split; try reflexivity.
  now apply read_blocks_run.
Qed.

(* ----------------------------------------------------------------- *)
(** *** Which decompressors can succeed *)

Lemma read_payload_header_ok
    (dc dd de : decompressor) (lc ld lt : Z) (fi fi' : stream)
    (r : patch_result) :
  read_payload (dc, dd, de) true lc ld lt fi = (Ok r, fi') ->
  dc = BrotliModule
  /\ exists bcontrol tcontrol,
       brotli_decompress (read_data (Some lc) fi) = Some bcontrol
       /\ parse_control bcontrol = Ok tcontrol
       /\ r = HeaderOnly lc ld lt tcontrol
       /\ fi' = after_read (Some lc) fi.
Proof.
  unfold read_payload. intros H.
  apply bind_ok in H as (bcontrol & fi1 & Hc & H).
  apply decompress_read_ok in Hc as (-> & Hc & ->).
  apply bind_ok in H as (tcontrol & fi2 & Ht & H).
  unfold lift in Ht. injection Ht as Ht <-.
  unfold ret in H. injection H as <- <-.
  split; [reflexivity|]. now exists bcontrol, tcontrol.
Qed.

Lemma read_payload_full_ok
    (dc dd de : decompressor) (lc ld lt : Z) (fi fi' : stream)
    (r : patch_result) :
  read_payload (dc, dd, de) false lc ld lt fi = (Ok r, fi') ->
  (dc = BrotliModule /\ dd = BrotliModule /\ de = BrotliModule)
  /\ exists bcontrol tcontrol bdiff bextra,
       brotli_decompress (read_data (Some lc) fi) = Some bcontrol
       /\ parse_control bcontrol = Ok tcontrol
       /\ brotli_decompress (read_data (Some ld) (after_read (Some lc) fi))
          = Some bdiff
       /\ brotli_decompress
            (read_data None (after_read (Some ld) (after_read (Some lc) fi)))
          = Some bextra
       /\ r = Full lt tcontrol bdiff bextra.
Proof.
  unfold read_payload. intros H.
  apply bind_ok in H as (bcontrol & fi1 & Hc & H).
  apply decompress_read_ok in Hc as (-> & Hc & ->).
  apply bind_ok in H as (tcontrol & fi2 & Ht & H).
  unfold lift in Ht. injection Ht as Ht <-.
  apply bind_ok in H as (bdiff & fi3 & Hd & H).
  apply decompress_read_ok in Hd as (-> & Hd & ->).
  apply bind_ok in H as (bextra & fi4 & He & H).
  apply decompress_read_ok in He as (-> & He & ->).
  unfold ret in H. injection H as <- <-.
  split; [auto|]. now exists bcontrol, tcontrol, bdiff, bextra.
Qed.

Lemma read_blocks_ok
    (ds : decompressor * decompressor * decompressor) (header_only : bool)
    (fi fi' : stream) (r : patch_result) :
  read_blocks ds header_only fi = (Ok r, fi') ->
  exists lc ld lt,
    decode_int64 (firstn 8 (unread fi)) = Some lc
    /\ decode_int64 (firstn 8 (unread (after_magic fi))) = Some ld
    /\ decode_int64 (firstn 8 (unread (after_magic (after_magic fi))))
       = Some lt
    /\ read_payload ds header_only lc ld lt
         (after_magic (after_magic (after_magic fi))) = (Ok r, fi').
Proof.
  intros H.
  destruct (read_blocks_cases ds header_only fi)
    as [Herr|(lc & ld & lt & Hc & Hd & Ht & Heq)].
  - rewrite H in Herr. discriminate Herr.
  - exists lc, ld, lt. rewrite <- Heq. auto.
Qed.

Lemma read_patch_ok (header_only : bool) (fi fi' : stream) (r : patch_result) :
  read_patch header_only fi = (Ok r, fi') ->
  exists ds, dispatch (firstn 8 (unread fi)) = Ok ds
             /\ read_blocks ds header_only (after_magic fi) = (Ok r, fi').
Proof.
  rewrite read_patch_dispatch.
  destruct (dispatch (firstn 8 (unread fi))) as [e|ds]; [discriminate|].
  intros H. now exists ds.
Qed.

(** A full parse succeeds only with three brotli channels. *)
Lemma read_patch_full_ok_brotli (fi fi' : stream) (r : patch_result) :
  read_patch false fi = (Ok r, fi') ->
  dispatch (firstn 8 (unread fi))
  = Ok (BrotliModule, BrotliModule, BrotliModule).
Proof.
  intros H. apply read_patch_ok in H as ([[dc dd] de] & Hdis & H).
  apply read_blocks_ok in H as (lc & ld & lt & _ & _ & _ & H).
  apply read_payload_full_ok in H as ((-> & -> & ->) & _). exact Hdis.
Qed.

(** A header-only parse succeeds only with a brotli control channel. *)
Lemma read_patch_header_ok_brotli (fi fi' : stream) (r : patch_result) :
  read_patch true fi = (Ok r, fi') ->
  exists dd de, dispatch (firstn 8 (unread fi)) = Ok (BrotliModule, dd, de).
Proof.
  intros H. apply read_patch_ok in H as ([[dc dd] de] & Hdis & H).
  apply read_blocks_ok in H as (lc & ld & lt & _ & _ & _ & H).
  apply read_payload_header_ok in H as (-> & _). now exists dd, de.
Qed.

Lemma dispatch_versioned_ok (magic : bytes) (dc dd de : decompressor) :
  is_versioned magic -> dispatch magic = Ok (dc, dd, de) ->
  selector magic 5 = Ok dc /\ selector magic 6 = Ok dd
  /\ selector magic 7 = Ok de.
Proof.
  intros Hv. rewrite (dispatch_versioned _ Hv).
  destruct (selector magic 5) as [e|d5]; [discriminate|].
  destruct (selector magic 6) as [e|d6]; [discriminate|].
  destruct (selector magic 7) as [e|d7]; [discriminate|].
  cbn. intros [= -> -> ->]. auto.
Qed.

(** In a versioned header whose three selectors resolve to the brotli
    module, no selector byte is the value of another member. *)
Lemma versioned_brotli_only (magic : bytes) (k : nat) (t : CompressionType) :
  is_versioned magic ->
  dispatch magic = Ok (BrotliModule, BrotliModule, BrotliModule) ->
  (5 <= k <= 7)%nat -> selects magic k t -> t = Brotli.
Proof.
  intros Hv Hdis Hk Hsel.
  apply (dispatch_versioned_ok _ _ _ _ Hv) in Hdis as (H5 & H6 & H7).
  apply selector_selects in Hsel.
  assert (Hk' : k = 5%nat \/ k = 6%nat \/ k = 7%nat) by lia.
  destruct Hk' as [->|[->| ->]];
    [rewrite H5 in Hsel | rewrite H6 in Hsel | rewrite H7 in Hsel];
    destruct t; first [reflexivity | discriminate Hsel].
Qed.

Lemma read_payload_control_class
    (dd de : decompressor) (header_only : bool) (lc ld lt : Z) (fi : stream) :
  read_payload (BZ2DecompressorClass, dd, de) header_only lc ld lt fi
  = (Raise TypeError, after_read (Some lc) fi).
Proof.
  unfold read_payload, bind. rewrite decompress_read_eq. reflexivity.
Qed.

Lemma read_payload_control_lambda
    (dd de : decompressor) (header_only : bool) (lc ld lt : Z) (fi : stream) :
  read_payload (IdentityLambda, dd, de) header_only lc ld lt fi
  = (Raise AttributeError, fi).
Proof.
  unfold read_payload, bind. rewrite decompress_read_eq. reflexivity.
Qed.

(** A computation that does not return a value raises. *)
Lemma not_ok_raises {A} (x : result A * stream) :
  (forall a fi', x <> (Ok a, fi')) -> exists e, fst x = Raise e.
Proof.
  destruct x as [[e|a] fi']; intros H.
  - now exists e.
  - exfalso. now apply (H a fi').
Qed.

(** On the legacy branch the control channel is served by the class. *)
Lemma read_patch_legacy_raises (fi : stream) :
  is_legacy (firstn 8 (unread fi)) ->
  forall header_only,
    fst (read_patch header_only fi) = Raise TypeError
    \/ fst (read_patch header_only fi) = Raise Int64Error.
Proof.
  intros Hl header_only. rewrite read_patch_dispatch.
  rewrite (dispatch_legacy _ Hl). result_step.
  destruct (read_blocks_cases
              (BZ2DecompressorClass, BZ2DecompressorClass,
               BZ2DecompressorClass) header_only (after_magic fi))
    as [Herr|(lc & ld & lt & _ & _ & _ & Heq)].
  - right. exact Herr.
  - left. rewrite Heq, read_payload_control_class. reflexivity.
Qed.

(** C2.  A stream dispatched to the legacy branch, or a versioned one with
    the selector of some channel equal to 1 (BZ2), never parses: the
    registry entry for BZ2 is the class [bz2.BZ2Decompressor] itself, and
    [.decompress] called on it with the channel bytes raises [TypeError]
    (after the bytes were read).  So the full parse of such a stream
    raises; for a legacy stream both modes raise, with [TypeError] on the
    control channel unless a length field already failed to decode; and a
    versioned stream whose control selector is 1 raises in both modes. *)
Theorem read_patch_block_channel_raises (fi : stream) :
  is_legacy (firstn 8 (unread fi))
  \/ (is_versioned (firstn 8 (unread fi))
      /\ exists k, (5 <= k <= 7)%nat /\ selects (firstn 8 (unread fi)) k BZ2) ->
  (forall size fi',
      decompress_read (create_bsdf2_decompressor BZ2) size fi'
      = (Raise TypeError, after_read size fi'))
  /\ (exists e, fst (read_patch false fi) = Raise e)
  /\ (is_legacy (firstn 8 (unread fi)) ->
      forall header_only,
        fst (read_patch header_only fi) = Raise TypeError
        \/ fst (read_patch header_only fi) = Raise Int64Error)
  /\ (is_versioned (firstn 8 (unread fi)) ->
      selects (firstn 8 (unread fi)) 5 BZ2 ->
      forall header_only, exists e, fst (read_patch header_only fi) = Raise e).
Proof.
  intros Hblock.
  pose proof (read_patch_legacy_raises fi) as Hlegacy.
  split; [|split; [|split]]; [| |exact Hlegacy|].
  - intros size fi'. rewrite decompress_read_eq. reflexivity.
  - destruct Hblock as [Hl|(Hv & k & Hk & Hsel)].
    + destruct (Hlegacy Hl false) as [H|H]; eauto.
    + apply not_ok_raises. intros r fi' Hok.
      apply read_patch_full_ok_brotli in Hok.
      pose proof (versioned_brotli_only _ _ _ Hv Hok Hk Hsel) as Ht.
      discriminate Ht.
  - intros Hv Hsel [|].
    + apply not_ok_raises. intros r fi' Hok.
      apply read_patch_header_ok_brotli in Hok as (dd & de & Hdis).
      apply (dispatch_versioned_ok _ _ _ _ Hv) in Hdis as (H5 & _).
      rewrite (selector_selects _ _ _ Hsel) in H5. discriminate H5.
    + apply not_ok_raises. intros r fi' Hok.
      apply read_patch_full_ok_brotli in Hok.
      assert (Hk : (5 <= 5 <= 7)%nat) by lia.
      pose proof (versioned_brotli_only _ _ _ Hv Hok Hk Hsel) as Ht.
      discriminate Ht.
Qed.

(** C4 (what the code does).  A versioned stream with the selector of some
    channel equal to 0 (NoCompression) never parses in full: the registry
    entry is the identity function [lambda x: x], but [read_patch] asks it
    for a [.decompress] attribute, which raises [AttributeError] before
    the channel bytes are even read.  When the control selector is 0, both
    modes raise.  No stored bytes are ever returned unchanged. *)
Theorem read_patch_identity_channel_raises (fi : stream) (k : nat) :
  is_versioned (firstn 8 (unread fi)) ->
  (5 <= k <= 7)%nat ->
  selects (firstn 8 (unread fi)) k NoCompression ->
  (forall size fi',
      decompress_read (create_bsdf2_decompressor NoCompression) size fi'
      = (Raise AttributeError, fi'))
  /\ (exists e, fst (read_patch false fi) = Raise e)
  /\ (k = 5%nat -> forall header_only,
        exists e, fst (read_patch header_only fi) = Raise e).
Proof.
  intros Hv Hk Hsel. split; [|split].
  - intros size fi'. rewrite decompress_read_eq. reflexivity.
  - apply not_ok_raises. intros r fi' Hok.
    apply read_patch_full_ok_brotli in Hok.
    pose proof (versioned_brotli_only _ _ _ Hv Hok Hk Hsel) as Ht.
    discriminate Ht.
  - intros -> [|].
    + apply not_ok_raises. intros r fi' Hok.
      apply read_patch_header_ok_brotli in Hok as (dd & de & Hdis).
      apply (dispatch_versioned_ok _ _ _ _ Hv) in Hdis as (H5 & _).
      rewrite (selector_selects _ _ _ Hsel) in H5. discriminate H5.
    + apply not_ok_raises. intros r fi' Hok.
      apply read_patch_full_ok_brotli in Hok.
      pose proof (versioned_brotli_only _ _ _ Hv Hok Hk Hsel) as Ht.
      discriminate Ht.
Qed.

(* ----------------------------------------------------------------- *)
(** *** The control block *)

Lemma mapM_raise {A B} (f : A -> result B) (e : exn) (l : list A) (x : A) :
  (forall a, (exists y, f a = Ok y) \/ f a = Raise e) ->
  In x l -> f x = Raise e -> mapM f l = Raise e.
Proof.
  intros Hf. induction l as [|a l IH]; intros Hin Hx; [destruct Hin|].
  cbn [mapM]. destruct (Hf a) as [[y Hy]|Ha].
  - rewrite Hy. result_step. destruct Hin as [->|Hin].
    + rewrite Hx in Hy. discriminate Hy.
    + rewrite (IH Hin Hx). reflexivity.
  - rewrite Ha. reflexivity.
Qed.

Lemma core_decode_int64_cases (b : bytes) :
  (exists n, core_decode_int64 b = Ok n)
  \/ core_decode_int64 b = Raise Int64Error.
Proof.
  unfold core_decode_int64. destruct (decode_int64 b) as [n|]; cbn; eauto.
Qed.

Lemma control_tuple_cases (bcontrol : bytes) (i : nat) :
  (exists c, control_tuple bcontrol i = Ok c)
  \/ control_tuple bcontrol i = Raise Int64Error.
Proof.
  unfold control_tuple.
  destruct (core_decode_int64_cases (slice bcontrol i (i + 8)))
    as [[x ->]| ->]; [|now right].
  destruct (core_decode_int64_cases (slice bcontrol (i + 8) (i + 16)))
    as [[y ->]| ->]; [|now right].
  destruct (core_decode_int64_cases (slice bcontrol (i + 16) (i + 24)))
    as [[z ->]| ->]; [|now right].
  left. now eexists.
Qed.

Lemma slice_length (b : bytes) (i j : nat) :
  length (slice b i j) = Nat.min (j - i) (length b - i).
Proof. unfold slice. rewrite length_firstn, length_skipn. reflexivity. Qed.

(** The last group of a control block that is not a whole number of
    24-byte groups has a third field of fewer than 8 bytes. *)
Lemma short_last_group (bcontrol : bytes) :
  (length bcontrol mod 24 <> 0)%nat ->
  let i := (length bcontrol / 24 * 24)%nat in
  In i (range0 (length bcontrol) 24)
  /\ (length (slice bcontrol (i + 16) (i + 24)) < 8)%nat.
Proof.
  intros Hmod i. set (n := length bcontrol) in *.
  pose proof (Nat.div_mod_eq n 24) as Hn.
  pose proof (Nat.mod_upper_bound n 24 ltac:(discriminate)) as Hr.
  split.
  - unfold range0. apply in_map_iff. exists (n / 24)%nat. split; [reflexivity|].
    apply in_seq. split; [lia|]. cbn [Nat.add].
    apply Nat.lt_le_trans with (S (n / 24)); [lia|].
    apply Nat.div_le_lower_bound; [discriminate|]. lia.
  - rewrite slice_length. fold n. subst i. lia.
Qed.

Lemma parse_control_ragged (bcontrol : bytes) :
  (forall b, length b <> 8%nat -> decode_int64 b = None) ->
  (length bcontrol mod 24 <> 0)%nat ->
  parse_control bcontrol = Raise Int64Error.
Proof.
  intros Hdec Hmod.
  destruct (short_last_group bcontrol Hmod) as [Hin Hshort].
  unfold parse_control.
  apply mapM_raise with (x := (length bcontrol / 24 * 24)%nat);
    [apply control_tuple_cases | exact Hin |].
  unfold control_tuple.
  destruct (core_decode_int64_cases
              (slice bcontrol (length bcontrol / 24 * 24)
                 (length bcontrol / 24 * 24 + 8))) as [[x ->]| ->];
    [|reflexivity].
  destruct (core_decode_int64_cases
              (slice bcontrol (length bcontrol / 24 * 24 + 8)
                 (length bcontrol / 24 * 24 + 16))) as [[y ->]| ->];
    [|reflexivity].
  result_step. unfold core_decode_int64.
  rewrite Hdec by lia. reflexivity.
Qed.

Lemma read_control_block_ok (fi fi' : stream) (bcontrol : bytes) :
  read_control_block fi = (Ok bcontrol, fi') ->
  exists dc dd de lc ld lt,
    dispatch (firstn 8 (unread fi)) = Ok (dc, dd, de)
    /\ decode_int64 (firstn 8 (unread (after_magic fi))) = Some lc
    /\ decode_int64 (firstn 8 (unread (after_magic (after_magic fi))))
       = Some ld
    /\ decode_int64
         (firstn 8 (unread (after_magic (after_magic (after_magic fi)))))
       = Some lt
    /\ decompress_read dc (Some lc) (after_header fi) = (Ok bcontrol, fi').
Proof.
  unfold read_control_block. intros H.
  apply bind_ok in H as (magic & fi1 & Hm & H).
  rewrite fi_read_magic in Hm. injection Hm as <- <-.
  apply bind_ok in H as ([[dc dd] de] & fi2 & Hdis & H).
  unfold lift in Hdis. injection Hdis as Hdis <-.
  apply bind_ok in H as (lc & fi3 & Hc & H).
  apply read_int64_ok in Hc as (Hc & ->).
  apply bind_ok in H as (ld & fi4 & Hd & H).
  apply read_int64_ok in Hd as (Hd & ->).
  apply bind_ok in H as (lt & fi5 & Ht & H).
  apply read_int64_ok in Ht as (Ht & ->).
  exists dc, dd, de, lc, ld, lt. auto.
Qed.

(** C3.  Provided [core.decode_int64] rejects an argument that is not 8
    bytes long: when the control block that [read_patch] obtains by
    decompression has a length that is not a multiple of 24, [read_patch]
    raises, in either mode, the error of the integer decoder (met in the
    last, incomplete group at the latest), right after the control block
    was read; no tuple list is returned. *)
Theorem read_patch_ragged_control
    (header_only : bool) (fi fi' : stream) (bcontrol : bytes) :
  (forall b, length b <> 8%nat -> decode_int64 b = None) ->
  read_control_block fi = (Ok bcontrol, fi') ->
  (length bcontrol mod 24 <> 0)%nat ->
  read_patch header_only fi = (Raise Int64Error, fi').
Proof.
  intros Hdec Hblock Hmod.
  apply read_control_block_ok in Hblock
    as (dc & dd & de & lc & ld & lt & Hdis & Hc & Hd & Ht & Hblock).
  rewrite read_patch_dispatch, Hdis. result_step.
  rewrite (read_blocks_run _ _ _ _ _ _ Hc Hd Ht).
  unfold read_payload. fold (after_header fi).
  rewrite (bind_run _ _ _ _ _ Hblock).
  apply bind_raise. unfold lift.
  rewrite (parse_control_ragged _ Hdec Hmod). reflexivity.
Qed.

(* ----------------------------------------------------------------- *)
(** *** Header-only parsing *)

(** The three length fields, as slices of the container. *)
Lemma header_fields (fi : stream) :
  firstn 8 (unread (after_magic fi)) = slice (unread fi) 8 16
  /\ firstn 8 (unread (after_magic (after_magic fi)))
     = slice (unread fi) 16 24
  /\ firstn 8 (unread (after_magic (after_magic (after_magic fi))))
     = slice (unread fi) 24 32.
Proof.
  unfold slice, after_magic; cbn [unread].
  rewrite !skipn_skipn. repeat split; reflexivity.
Qed.

Lemma read_payload_header_run
    (dd de : decompressor) (lc ld lt : Z) (fi : stream)
    (bcontrol : bytes) (tcontrol : list control) :
  brotli_decompress (read_data (Some lc) fi) = Some bcontrol ->
  parse_control bcontrol = Ok tcontrol ->
  read_payload (BrotliModule, dd, de) true lc ld lt fi
  = (Ok (HeaderOnly lc ld lt tcontrol), after_read (Some lc) fi).
Proof.
  intros Hc Ht. unfold read_payload, bind. rewrite decompress_read_eq.
  cbn [getattr_decompress Ok]. rewrite Hc. cbn [of_option Ok].
  unfold lift. rewrite Ht. reflexivity.
Qed.

(** C10.  When the full parse of a container succeeds with target length
    [len_dst] and control tuples [tcontrol], the header-only parse of the
    same container succeeds too and reports the same [len_dst] and
    [tcontrol], together with the two declared block lengths: the values
    of the length fields at offsets 8 and 16 of the container. *)
Theorem header_only_consistent
    (fi : stream) (len_dst : Z) (tcontrol : list control)
    (bdiff bextra : bytes) :
  fst (read_patch false fi) = Ok (Full len_dst tcontrol bdiff bextra) ->
  exists len_control len_diff,
    fst (read_patch true fi)
    = Ok (HeaderOnly len_control len_diff len_dst tcontrol)
    /\ decode_int64 (slice (unread fi) 8 16) = Some len_control
    /\ decode_int64 (slice (unread fi) 16 24) = Some len_diff
    /\ decode_int64 (slice (unread fi) 24 32) = Some len_dst.
Proof.
  destruct (read_patch false fi) as [res fi'] eqn:Hfull. cbn [fst].
  intros ->.
  apply read_patch_ok in Hfull as ([[dc dd] de] & Hdis & H).
  apply read_blocks_ok in H as (lc & ld & lt & Hc & Hd & Ht & H).
  apply read_payload_full_ok in H
    as ((-> & -> & ->) & bcontrol & tc & bd & be & Hb & Hp & _ & _ & Hr).
  injection Hr as -> -> -> ->.
  exists lc, ld.
  destruct (header_fields fi) as (E1 & E2 & E3).
  rewrite <- E1, <- E2, <- E3. repeat split; try assumption.
  rewrite read_patch_dispatch, Hdis. result_step.
  rewrite (read_blocks_run _ _ _ _ _ _ Hc Hd Ht).
  rewrite (read_payload_header_run _ _ _ _ _ _ _ _ Hb Hp). reflexivity.
Qed.

(* ----------------------------------------------------------------- *)
(** *** Truncated containers *)





(* ----------------------------------------------------------------- *)
(** *** The errors of a parse *)

Lemma mapM_error {A B} (f : A -> result B) (P : exn -> Prop) (l : list A)
    (e : exn) :
  (forall a e', f a = Raise e' -> P e') -> mapM f l = Raise e -> P e.
Proof.
  intros Hf. induction l as [|a l IH]; [discriminate|].
  cbn [mapM]. destruct (f a) as [e1|y] eqn:Ha.
  - cbn. intros [= <-]. now apply (Hf a).
  - result_step. destruct (mapM f l) as [e2|ys]; cbn; [|discriminate].
    intros [= <-]. now apply IH.
Qed.

Lemma control_tuple_error (bcontrol : bytes) (i : nat) (e : exn) :
  control_tuple bcontrol i = Raise e -> e = Int64Error.
Proof.
  destruct (control_tuple_cases bcontrol i) as [[c ->]| ->].
  - discriminate.
  - now intros [= <-].
Qed.

Lemma parse_control_error (bcontrol : bytes) (e : exn) :
  parse_control bcontrol = Raise e -> e = Int64Error.
Proof.
  unfold parse_control. intros H.
  exact (mapM_error (control_tuple bcontrol) (fun e' => e' = Int64Error)
           _ e (control_tuple_error bcontrol) H).
Qed.

Lemma decompress_read_error (d : decompressor) (size : option Z)
    (fi : stream) (e : exn) :
  fst (decompress_read d size fi) = Raise e ->
  (d = IdentityLambda /\ e = AttributeError)
  \/ (d = BZ2DecompressorClass /\ e = TypeError)
  \/ (d = BrotliModule /\ e = BrotliError).
Proof.
  rewrite decompress_read_eq. destruct d; cbn.
  - intros [= <-]. auto.
  - intros [= <-]. auto.
  - destruct (brotli_decompress (read_data size fi)); cbn; [discriminate|].
    intros [= <-]. auto.
Qed.

Lemma read_payload_error
    (dc dd de : decompressor) (header_only : bool) (lc ld lt : Z)
    (fi : stream) (e : exn) :
  fst (read_payload (dc, dd, de) header_only lc ld lt fi) = Raise e ->
  raised_by_blocks (dc, dd, de) e.
Proof.
  unfold read_payload, raised_by_blocks, bind.
  destruct (decompress_read dc (Some lc) fi) as [[e1|bcontrol] fi1] eqn:H1.
  { cbn [fst]. intros [= <-]. apply (f_equal fst) in H1. cbn [fst] in H1.
    apply decompress_read_error in H1 as [[-> ->]|[[-> ->]|[-> ->]]];
      cbn [In]; intuition congruence. }
  unfold lift. destruct (parse_control bcontrol) as [e2|tcontrol] eqn:H2.
  { cbn [fst]. intros [= <-]. apply parse_control_error in H2. auto. }
  destruct header_only; [discriminate|].
  destruct (decompress_read dd (Some ld) fi1) as [[e3|bdiff] fi3] eqn:H3.
  { cbn [fst]. intros [= <-]. apply (f_equal fst) in H3. cbn [fst] in H3.
    apply decompress_read_error in H3 as [[-> ->]|[[-> ->]|[-> ->]]];
      cbn [In]; intuition congruence. }
  destruct (decompress_read de None fi3) as [[e4|bextra] fi4] eqn:H4.
  { cbn [fst]. intros [= <-]. apply (f_equal fst) in H4. cbn [fst] in H4.
    apply decompress_read_error in H4 as [[-> ->]|[[-> ->]|[-> ->]]];
      cbn [In]; intuition congruence. }
  discriminate.
Qed.

Lemma read_blocks_error
    (ds : decompressor * decompressor * decompressor) (header_only : bool)
    (fi : stream) (e : exn) :
  fst (read_blocks ds header_only fi) = Raise e -> raised_by_blocks ds e.
Proof.
  destruct (read_blocks_cases ds header_only fi)
    as [Herr|(lc & ld & lt & _ & _ & _ & Heq)].
  - rewrite Herr. intros [= <-]. destruct ds as [[dc dd] de]. now left.
  - rewrite Heq. destruct ds as [[dc dd] de]. apply read_payload_error.
Qed.

Lemma raised_by_blocks_known
    (ds : decompressor * decompressor * decompressor) :
  ~ raised_by_blocks ds NotABsdiff4Patch.
Proof.
  destruct ds as [[dc dd] de].
  intros [H|[H|[[H _]|[H _]]]]; discriminate H.
Qed.

Lemma selector_error (magic : bytes) (k : nat) (e : exn) :
  selector magic k = Raise e ->
  e = IndexError \/ exists v, e = InvalidCompressionType v.
Proof.
  unfold selector. destruct (nth_error magic k) as [b|]; cbn.
  - unfold CompressionType_of_value.
    destruct (byte_to_Z b =? 0); [discriminate|].
    destruct (byte_to_Z b =? 1); [discriminate|].
    destruct (byte_to_Z b =? 2); [discriminate|].
    cbn. intros [= <-]. right. now eexists.
  - intros [= <-]. now left.
Qed.

(** The dispatch raises the "not a patch" error exactly on the headers
    that pass neither of its tests; on a versioned header it raises only
    the errors of a selector. *)
Lemma dispatch_error (magic : bytes) (e : exn) :
  dispatch magic = Raise e ->
  (e = NotABsdiff4Patch /\ ~ is_versioned magic /\ ~ is_legacy magic)
  \/ (is_versioned magic
      /\ (e = IndexError \/ exists v, e = InvalidCompressionType v)).
Proof.
  unfold dispatch.
  destruct (bytes_eqb (firstn 4 magic) (firstn 4 BSDF2_MAGIC)) eqn:Hv.
  - apply bytes_eqb_eq in Hv. intros H. right. split; [exact Hv|].
    destruct (selector magic 5) as [e5|d5] eqn:H5;
      [cbn in H; injection H as <-; now apply (selector_error magic 5)|].
    destruct (selector magic 6) as [e6|d6] eqn:H6;
      [cbn in H; injection H as <-; now apply (selector_error magic 6)|].
    destruct (selector magic 7) as [e7|d7] eqn:H7;
      [cbn in H; injection H as <-; now apply (selector_error magic 7)|].
    discriminate H.
  - destruct (bytes_eqb (firstn 7 magic) (firstn 7 BSDIFF_MAGIC)) eqn:Hl;
      [discriminate|].
    intros [= <-]. left. split; [reflexivity|].
    split; now apply bytes_eqb_neq.
Qed.

(** The error of a parse is the error of the dispatch when the dispatch
    raises, and an error of the later steps otherwise. *)
Lemma read_patch_error (header_only : bool) (fi : stream) (e : exn) :
  fst (read_patch header_only fi) = Raise e ->
  match dispatch (firstn 8 (unread fi)) with
  | inl e0 => e = e0 /\ raised_by_dispatch e
  | inr ds => raised_by_blocks ds e
  end.
Proof.
  rewrite read_patch_dispatch.
  destruct (dispatch (firstn 8 (unread fi))) as [e0|ds] eqn:Hdis.
  - cbn [fst]. intros [= <-]. split; [reflexivity|].
    apply dispatch_error in Hdis as [(-> & _)|(_ & [->|[v ->]])];
      unfold raised_by_dispatch; eauto.
  - apply read_blocks_error.
Qed.

(** C5 (amended).  [read_patch] raises [ValueError("Not a BSDIFF4 patch")]
    exactly for the inputs whose 8-byte prefix passes neither test of the
    format dispatch, which compares the first 4 bytes with [BSDF] and the
    first 7 bytes with [BSDIFF4].  For such an input, in either mode, the
    only read made on the stream is the 8-byte read of the magic: the three
    length fields are never read and stay unconsumed.  For every other
    input, the ones that match a magic among them, [read_patch] goes on to
    the selectors or the length fields and never raises that error,
    whether or not the 8 bytes match the versioned or the legacy magic. *)
Theorem read_patch_unknown_magic (header_only : bool) (fi : stream) :
  (~ is_versioned (firstn 8 (unread fi)) ->
   ~ is_legacy (firstn 8 (unread fi)) ->
   read_patch header_only fi =
   (Raise NotABsdiff4Patch,
    mkStream (skipn 8 (unread fi)) (reads fi ++ [Some 8])))
  /\ (fst (read_patch header_only fi) = Raise NotABsdiff4Patch ->
      ~ is_versioned (firstn 8 (unread fi))
      /\ ~ is_legacy (firstn 8 (unread fi)))
  /\ (matches_versioned_magic (firstn 8 (unread fi)) ->
      is_versioned (firstn 8 (unread fi)))
  /\ (matches_legacy_magic (firstn 8 (unread fi)) ->
      is_legacy (firstn 8 (unread fi))).
Proof.
  split; [|split; [|split]].
  - intros Hv Hl. rewrite read_patch_dispatch.
    rewrite (dispatch_unknown _ Hv Hl). reflexivity.
  - intros H. apply read_patch_error in H.
    destruct (dispatch (firstn 8 (unread fi))) as [e0|ds] eqn:Hdis.
    + destruct H as [<- _].
      apply dispatch_error in Hdis as [(_ & Hv & Hl)|(_ & [H|[v H]])];
        [auto | discriminate H | discriminate H].
    + now apply raised_by_blocks_known in H.
  - unfold matches_versioned_magic, is_versioned.
    generalize (firstn 8 (unread fi)). intros magic H.
    rewrite <- H, firstn_firstn. reflexivity.
  - unfold matches_legacy_magic, is_legacy.
    generalize (firstn 8 (unread fi)). intros magic H.
    rewrite <- H, firstn_firstn. reflexivity.
Qed.


End Properties.

(* ================================================================= *)
(** ** The write path *)

Section WritePath.

Context {codec : Int64Codec} {brotli : BrotliLib} {bz2 : Bz2Lib}
        {engine : CoreEngine}.

Lemma fold_write_tuple (faux : bytes) (c : control) :
  fold_left (fun faux x => write faux (encode_int64 x)) (items c) faux
  = faux ++ encode_tuple c.
Proof.
  destruct c as [[x y] z]. cbn. unfold write. now rewrite <- !app_assoc.
Qed.

Lemma flatten_control_from (faux : bytes) (tcontrol : list control) :
  fold_left
    (fun faux c =>
       fold_left (fun faux x => write faux (encode_int64 x)) (items c) faux)
    tcontrol faux
  = faux ++ concat (map encode_tuple tcontrol).
Proof.
  revert faux. induction tcontrol as [|c tcontrol IH]; intros faux.
  - cbn. now rewrite app_nil_r.
  - cbn [fold_left map concat]. rewrite IH, fold_write_tuple.
    now rewrite <- app_assoc.
Qed.

Lemma flatten_control_eq (tcontrol : list control) :
  flatten_control tcontrol = concat (map encode_tuple tcontrol).
Proof. unfold flatten_control. now rewrite flatten_control_from. Qed.

Lemma encode_tuple_length (c : control) : length (encode_tuple c) = 24%nat.
Proof.
  destruct c as [[x y] z]. unfold encode_tuple.
  rewrite !length_app, !encode_int64_length. reflexivity.
Qed.

Lemma flatten_control_length (tcontrol : list control) :
  length (flatten_control tcontrol) = (24 * length tcontrol)%nat.
Proof.
  rewrite flatten_control_eq. induction tcontrol as [|c tcontrol IH].
  - reflexivity.
  - cbn [map concat length]. rewrite length_app, encode_tuple_length, IH. lia.
Qed.

Lemma wbind_run {A B} (m : W A) (k : A -> W B) (fo fo1 : bytes) (a : A) :
  m fo = (Ok a, fo1) -> wbind m k fo = k a fo1.
Proof. unfold wbind. now intros ->. Qed.

Lemma wbind_raise {A B} (m : W A) (k : A -> W B) (fo fo1 : bytes) (e : exn) :
  m fo = (Raise e, fo1) -> wbind m k fo = (Raise e, fo1).
Proof. unfold wbind. now intros ->. Qed.

Lemma write_int64_ok (x : Z) (fo : bytes) :
  in_int64 x = true -> write_int64 x fo = (Ok tt, fo ++ encode_int64 x).
Proof.
  intros H. unfold write_int64, wbind, wlift, core_encode_int64.
  now rewrite H.
Qed.

Lemma write_int64_raise (x : Z) (fo : bytes) :
  in_int64 x = false -> write_int64 x fo = (Raise OverflowError, fo).
Proof.
  intros H. unfold write_int64, wbind, wlift, core_encode_int64.
  now rewrite H.
Qed.

(** A run of encoded writes stops at the first integer that does not
    encode; what was encoded before it has been written. *)
Lemma for_each_int64 (l : list Z) (fo : bytes) :
  for_each l write_int64 fo
  = (if forallb in_int64 l then Ok tt else Raise OverflowError,
     fo ++ concat (map encode_int64 (encodable_prefix l))).
Proof.
  revert fo. induction l as [|x l IH]; intros fo.
  - cbn. now rewrite app_nil_r.
  - cbn [for_each forallb encodable_prefix].
    destruct (in_int64 x) eqn:Hx.
    + rewrite (wbind_run _ _ _ _ _ (write_int64_ok _ _ Hx)), IH.
      cbn [andb map concat]. now rewrite <- app_assoc.
    + rewrite (wbind_raise _ _ _ _ _ (write_int64_raise _ _ Hx)).
      cbn. now rewrite app_nil_r.
Qed.

Lemma write_tuple_ok (c : control) (fo : bytes) :
  tuple_int64 c = true ->
  for_each (items c) write_int64 fo = (Ok tt, fo ++ encode_tuple c).
Proof.
  intros H. rewrite for_each_int64. unfold tuple_int64 in H. rewrite H.
  destruct c as [[x y] z]. cbn [items forallb] in H.
  apply andb_prop in H as [Hx H]. apply andb_prop in H as [Hy H].
  apply andb_prop in H as [Hz _].
  cbn [items encodable_prefix]. rewrite Hx, Hy, Hz.
  cbn [map concat encode_tuple]. now rewrite app_nil_r.
Qed.

Lemma write_tuple_raise (c : control) (fo : bytes) :
  tuple_int64 c = false ->
  fst (for_each (items c) write_int64 fo) = Raise OverflowError.
Proof.
  intros H. rewrite for_each_int64. unfold tuple_int64 in H. now rewrite H.
Qed.

Lemma write_control_ok (tcontrol : list control) (faux : bytes) :
  forallb tuple_int64 tcontrol = true ->
  write_control tcontrol faux
  = (Ok tt, faux ++ concat (map encode_tuple tcontrol)).
Proof.
  unfold write_control. revert faux.
  induction tcontrol as [|c tcontrol IH]; intros faux H.
  - cbn. now rewrite app_nil_r.
  - cbn [forallb] in H. apply andb_prop in H as [Hc H].
    cbn [for_each].
    rewrite (wbind_run _ _ _ _ _ (write_tuple_ok _ _ Hc)), (IH _ H).
    cbn [map concat]. now rewrite <- app_assoc.
Qed.

Lemma write_control_raise (tcontrol : list control) (faux : bytes) :
  forallb tuple_int64 tcontrol = false ->
  fst (write_control tcontrol faux) = Raise OverflowError.
Proof.
  unfold write_control. revert faux.
  induction tcontrol as [|c tcontrol IH]; intros faux H; [discriminate|].
  cbn [forallb] in H. cbn [for_each]. unfold wbind.
  destruct (tuple_int64 c) eqn:Hc.
  - rewrite (write_tuple_ok _ _ Hc). apply IH. exact H.
  - pose proof (write_tuple_raise c faux Hc) as Hr.
    destruct (for_each (items c) write_int64 faux) as [[e|[]] faux'];
      cbn [fst] in *; [exact Hr | discriminate Hr].
Qed.

(** The buffer that the loop of lines 53-55 hands to the compressor. *)
Lemma getvalue_control (tcontrol : list control) :
  getvalue_after (write_control tcontrol)
  = if forallb tuple_int64 tcontrol then Ok (flatten_control tcontrol)
    else Raise OverflowError.
Proof.
  unfold getvalue_after.
  destruct (forallb tuple_int64 tcontrol) eqn:H.
  - rewrite (write_control_ok _ _ H), flatten_control_eq. reflexivity.
  - pose proof (write_control_raise tcontrol [] H) as Hr.
    destruct (write_control tcontrol []) as [[e|[]] faux];
      cbn [fst] in *; [injection Hr as -> | discriminate Hr].
    reflexivity.
Qed.

(** What [write_patch] returns and what it leaves in [fo], in every
    case. *)
Lemma write_patch_eq (fo : bytes) (len_dst : Z) (tcontrol : list control)
    (bdiff bextra : bytes) :
  write_patch len_dst tcontrol bdiff bextra fo
  = if forallb tuple_int64 tcontrol then
      if forallb in_int64
           [len (bz2_compress (flatten_control tcontrol));
            len (bz2_compress bdiff); len_dst]
      then
        (Ok tt,
         fo ++ BSDIFF_MAGIC
            ++ encode_int64 (len (bz2_compress (flatten_control tcontrol)))
            ++ encode_int64 (len (bz2_compress bdiff))
            ++ encode_int64 len_dst
            ++ bz2_compress (flatten_control tcontrol)
            ++ bz2_compress bdiff
            ++ bz2_compress bextra)
      else
        (Raise OverflowError,
         fo ++ BSDIFF_MAGIC
            ++ concat (map encode_int64
                         (encodable_prefix
                            [len (bz2_compress (flatten_control tcontrol));
                             len (bz2_compress bdiff); len_dst])))
    else (Raise OverflowError, fo ++ BSDIFF_MAGIC).
Proof.
  unfold write_patch. unfold wbind at 1, fo_write at 1, write at 1.
  cbv beta iota. unfold wbind at 1, wlift. rewrite getvalue_control.
  destruct (forallb tuple_int64 tcontrol); [|reflexivity].
  result_step. cbv beta iota zeta. unfold wbind at 1, write at 1.
  rewrite for_each_int64.
  destruct (forallb in_int64 _) eqn:Hfields.
  - cbn [forallb] in Hfields.
    apply andb_prop in Hfields as [H1 H].
    apply andb_prop in H as [H2 H]. apply andb_prop in H as [H3 _].
    cbn [encodable_prefix]. rewrite H1, H2, H3.
    unfold wbind, fo_write, write. cbn [map concat].
    rewrite <- !app_assoc, app_nil_r. reflexivity.
  - rewrite <- app_assoc. reflexivity.
Qed.

(** Whatever happens, what [write_patch] has written starts with the
    legacy magic. *)
Lemma write_patch_prefix (fo : bytes) (len_dst : Z) (tcontrol : list control)
    (bdiff bextra : bytes) :
  exists w,
    snd (write_patch len_dst tcontrol bdiff bextra fo)
    = fo ++ BSDIFF_MAGIC ++ w.
Proof.
  rewrite write_patch_eq.
  destruct (forallb tuple_int64 tcontrol);
    [destruct (forallb in_int64 _)|]; cbn [snd].
  - now eexists.
  - now eexists.
  - exists []. now rewrite app_nil_r.
Qed.

(** [patch] on bytes that start with the legacy magic. *)
Lemma patch_legacy_raises (src w : bytes) :
  patch src (BSDIFF_MAGIC ++ w) = Raise TypeError
  \/ patch src (BSDIFF_MAGIC ++ w) = Raise Int64Error.
Proof.
  unfold patch.
  assert (Hl : is_legacy (firstn 8 (unread (BytesIO (BSDIFF_MAGIC ++ w)))))
    by reflexivity.
  destruct (read_patch_legacy_raises _ Hl false) as [-> | ->]; auto.
Qed.

Lemma encodable_eq (len_dst : Z) (tcontrol : list control) (bdiff : bytes) :
  encodable len_dst tcontrol bdiff
  = forallb tuple_int64 tcontrol
    && forallb in_int64
         [len (bz2_compress (flatten_control tcontrol));
          len (bz2_compress bdiff); len_dst].
Proof. reflexivity. Qed.

Lemma encodable_prefix_short (l : list Z) :
  forallb in_int64 l = false ->
  (length (concat (map encode_int64 (encodable_prefix l))) < 8 * length l)%nat.
Proof.
  induction l as [|x l IH]; [discriminate|].
  cbn [forallb encodable_prefix]. destruct (in_int64 x); [|cbn; lia].
  cbn [andb map concat length]. intros H.
  rewrite length_app, encode_int64_length. specialize (IH H). lia.
Qed.

(** C8 (amended).  When every integer that [write_patch] encodes is a
    signed 64-bit integer (the elements of the control tuples, the lengths
    of the compressed control and diff blocks, [len_dst]), [write_patch]
    returns and has added to [fo] exactly: the magic, the 8-byte encodings
    of the compressed control length, the compressed diff length and
    [len_dst], the compressed control block, the compressed diff block and
    the compressed extra block, 32 bytes plus the three blocks; the buffer
    compressed into the control block is the one the loop wrote, the
    concatenation, in order, of the three encodings of each tuple, 24
    bytes per tuple.  In every other call [write_patch] raises
    [OverflowError] and has added to [fo] only the magic and fewer than
    three encoded fields. *)
Theorem write_patch_layout (fo : bytes) (len_dst : Z)
    (tcontrol : list control) (bdiff bextra : bytes) :
  (encodable len_dst tcontrol bdiff = true ->
   write_patch len_dst tcontrol bdiff bextra fo
   = (Ok tt,
      fo ++ BSDIFF_MAGIC
         ++ encode_int64
              (Z.of_nat (length (bz2_compress (flatten_control tcontrol))))
         ++ encode_int64 (Z.of_nat (length (bz2_compress bdiff)))
         ++ encode_int64 len_dst
         ++ bz2_compress (flatten_control tcontrol)
         ++ bz2_compress bdiff ++ bz2_compress bextra)
   /\ length (snd (write_patch len_dst tcontrol bdiff bextra fo))
      = (length fo + 8 + 8 + 8 + 8
         + length (bz2_compress (flatten_control tcontrol))
         + length (bz2_compress bdiff) + length (bz2_compress bextra))%nat
   /\ getvalue_after (write_control tcontrol) = Ok (flatten_control tcontrol)
   /\ flatten_control tcontrol
      = concat (map (fun c => encode_int64 (fst (fst c))
                              ++ encode_int64 (snd (fst c))
                              ++ encode_int64 (snd c)) tcontrol)
   /\ length (flatten_control tcontrol) = (24 * length tcontrol)%nat)
  /\ (encodable len_dst tcontrol bdiff = false ->
      fst (write_patch len_dst tcontrol bdiff bextra fo) = Raise OverflowError
      /\ exists w,
           snd (write_patch len_dst tcontrol bdiff bextra fo)
           = fo ++ BSDIFF_MAGIC ++ w
           /\ (length w < 24)%nat).
Proof.
  rewrite encodable_eq, write_patch_eq. split.
  - intros H. apply andb_prop in H as [Ht Hf]. rewrite Ht, Hf.
    split; [reflexivity|]. split; [|split; [|split]].
    + cbn [snd]. rewrite !length_app, !encode_int64_length.
      change (length BSDIFF_MAGIC) with 8%nat. lia.
    + now rewrite getvalue_control, Ht.
    + rewrite flatten_control_eq. f_equal. apply map_ext.
      now intros [[x y] z].
    + apply flatten_control_length.
  - intros H. destruct (forallb tuple_int64 tcontrol).
    + cbn [andb] in H. rewrite H. split; [reflexivity|].
      eexists. split; [reflexivity|].
      pose proof (encodable_prefix_short _ H) as Hlen. cbn [length] in Hlen.
      lia.
    + split; [reflexivity|]. exists []. split; [now rewrite app_nil_r|].
      cbn. lia.
Qed.

(** C1 (what the code does).  [diff] writes the legacy magic, so [patch]
    parses its output on the legacy branch, where the control channel is
    served by the class [bz2.BZ2Decompressor]: whatever [diff] returns for
    a source and a target, [patch] on it raises [TypeError] (or the error
    of the integer decoder, should it reject a length field) instead of
    returning the target.  [diff] does return whenever the integers it
    encodes are signed 64-bit integers, as lengths and the integers of
    [core.diff] are; it raises nothing but [OverflowError] otherwise. *)
Theorem patch_diff_raises (src dst : bytes) :
  (forall patch_bytes,
      diff src dst = Ok patch_bytes ->
      patch src patch_bytes = Raise TypeError
      \/ patch src patch_bytes = Raise Int64Error)
  /\ (forall e, diff src dst = Raise e -> e = OverflowError)
  /\ (encodable (len dst) (fst (fst (core_diff src dst)))
        (snd (fst (core_diff src dst))) = true ->
      exists patch_bytes, diff src dst = Ok patch_bytes).
Proof.
  unfold diff. destruct (core_diff src dst) as [[tcontrol bdiff] bextra].
  cbn [fst snd]. unfold getvalue_after.
  destruct (write_patch_prefix [] (len dst) tcontrol bdiff bextra)
    as [w Hw].
  pose proof (write_patch_eq [] (len dst) tcontrol bdiff bextra) as Heq.
  rewrite encodable_eq.
  destruct (write_patch (len dst) tcontrol bdiff bextra [])
    as [[e|[]] out]; cbn [fst snd] in *; subst out.
  - split; [discriminate|]. split.
    + intros e' [= <-].
      destruct (forallb tuple_int64 tcontrol);
        [destruct (forallb in_int64 _)|]; now inversion Heq.
    + intros Henc. apply andb_prop in Henc as [Ht Hf].
      rewrite Ht, Hf in Heq. discriminate Heq.
  - split; [|split; [discriminate | eauto]].
    intros patch_bytes [= <-]. apply (patch_legacy_raises src w).
Qed.

End WritePath.

(* ================================================================= *)
(** ** The control stream *)

Section ControlStream.

Context {codec : Int64Codec}.

Lemma range0_next (n : nat) :
  range0 (24 + n) 24 = 0%nat :: map (fun i => (i + 24)%nat) (range0 n 24).
Proof.
  unfold range0.
  replace ((24 + n + 24 - 1) / 24)%nat with (S ((n + 24 - 1) / 24)).
  - cbn [seq map]. f_equal. rewrite <- seq_shift, !map_map.
    apply map_ext. intros k. lia.
  - replace (24 + n + 24 - 1)%nat with (1 * 24 + (n + 24 - 1))%nat by lia.
    rewrite Nat.div_add_l by discriminate. reflexivity.
Qed.

Lemma slice_app_shift (t rest : bytes) (i j : nat) :
  slice (t ++ rest) (i + length t) (j + length t) = slice rest i j.
Proof.
  unfold slice. rewrite skipn_app, skipn_all2 by lia.
  replace (i + length t - length t)%nat with i by lia.
  replace (j + length t - (i + length t))%nat with (j - i)%nat by lia.
  reflexivity.
Qed.

Lemma slice_shift24 (t rest : bytes) (i j : nat) :
  length t = 24%nat -> slice (t ++ rest) (i + 24) (j + 24) = slice rest i j.
Proof. intros <-. apply slice_app_shift. Qed.

Lemma control_tuple_shift (t rest : bytes) (i : nat) :
  length t = 24%nat ->
  control_tuple (t ++ rest) (i + 24) = control_tuple rest i.
Proof.
  intros Ht. unfold control_tuple.
  replace (i + 24 + 8)%nat with (i + 8 + 24)%nat by lia.
  replace (i + 24 + 16)%nat with (i + 16 + 24)%nat by lia.
  rewrite !(slice_shift24 _ _ _ _ Ht). reflexivity.
Qed.

Lemma slice_field (a b rest : bytes) (i j : nat) :
  length a = i -> j = (i + length b)%nat -> slice (a ++ b ++ rest) i j = b.
Proof.
  intros <- ->. unfold slice.
  rewrite skipn_app, skipn_all, Nat.sub_diag. cbn [skipn app].
  replace (length a + length b - length a)%nat with (length b) by lia.
  rewrite firstn_app, firstn_all, Nat.sub_diag. cbn. apply app_nil_r.
Qed.

Lemma control_tuple_head (c : control) (rest : bytes) :
  round_trips c -> control_tuple (encode_tuple c ++ rest) 0 = Ok c.
Proof.
  destruct c as [[x y] z]. intros (Hx & Hy & Hz).
  unfold control_tuple, encode_tuple, core_decode_int64.
  rewrite <- !app_assoc.
  pose proof (encode_int64_length x) as Lx.
  pose proof (encode_int64_length y) as Ly.
  pose proof (encode_int64_length z) as Lz.
  set (ex := encode_int64 x) in *. set (ey := encode_int64 y) in *.
  set (ez := encode_int64 z) in *.
  assert (H1 : slice (ex ++ ey ++ ez ++ rest) 0 (0 + 8) = ex).
  { apply (slice_field [] ex); [reflexivity | lia]. }
  assert (H2 : slice (ex ++ ey ++ ez ++ rest) (0 + 8) (0 + 16) = ey).
  { apply (slice_field ex ey); lia. }
  assert (H3 : slice (ex ++ ey ++ ez ++ rest) (0 + 16) (0 + 24) = ez).
  { replace (ex ++ ey ++ ez ++ rest) with ((ex ++ ey) ++ ez ++ rest)
      by (now rewrite <- app_assoc).
    apply slice_field; [rewrite length_app|]; lia. }
  rewrite H1, H2, H3. subst ex ey ez. rewrite Hx, Hy, Hz. reflexivity.
Qed.

Lemma mapM_map {A B C} (f : B -> result C) (g : A -> B) (l : list A) :
  mapM f (map g l) = mapM (fun a => f (g a)) l.
Proof.
  induction l as [|a l IH]; [reflexivity|].
  cbn [map mapM]. now rewrite IH.
Qed.

Lemma mapM_ext {A B} (f g : A -> result B) (l : list A) :
  (forall a, f a = g a) -> mapM f l = mapM g l.
Proof.
  intros H. induction l as [|a l IH]; [reflexivity|].
  cbn [mapM]. now rewrite H, IH.
Qed.

Lemma parse_control_cons (c : control) (rest : bytes) :
  round_trips c ->
  parse_control (encode_tuple c ++ rest)
  = rbind (parse_control rest) (fun cs => Ok (c :: cs)).
Proof.
  intros Hc. unfold parse_control.
  rewrite length_app. rewrite (encode_tuple_length c).
  rewrite range0_next. cbn [mapM].
  rewrite (control_tuple_head c rest Hc). result_step.
  rewrite mapM_map.
  rewrite (mapM_ext _ (control_tuple rest)); [reflexivity|].
  intros i. apply control_tuple_shift. apply encode_tuple_length.
Qed.

(** The control tuples written by [write_patch] are read back by
    [read_patch]: parsing the flattened control buffer returns the tuples,
    in order, whenever the integer codec round-trips their integers. *)
Theorem parse_control_flatten (tcontrol : list control) :
  Forall round_trips tcontrol ->
  parse_control (flatten_control tcontrol) = Ok tcontrol.
Proof.
  rewrite flatten_control_eq. induction 1 as [|c cs Hc _ IH].
  - reflexivity.
  - cbn [map concat]. rewrite (parse_control_cons _ _ Hc), IH. reflexivity.
Qed.

Lemma mapM_length {A B} (f : A -> result B) (l : list A) (ys : list B) :
  mapM f l = Ok ys -> length ys = length l.
Proof.
  revert ys. induction l as [|a l IH]; intros ys; cbn [mapM].
  - intros [= <-]. reflexivity.
  - destruct (f a) as [e|y]; [discriminate|]. result_step.
    destruct (mapM f l) as [e|ys']; [discriminate|]. result_step.
    intros [= <-]. cbn. now rewrite (IH ys').
Qed.

Lemma mapM_nth {A B} (f : A -> result B) (l : list A) (ys : list B)
    (k : nat) (y : B) :
  mapM f l = Ok ys -> nth_error ys k = Some y ->
  exists x, nth_error l k = Some x /\ f x = Ok y.
Proof.
  revert ys k. induction l as [|a l IH]; intros ys k; cbn [mapM].
  - intros [= <-]. destruct k; discriminate.
  - destruct (f a) as [e|y0] eqn:Ha; [discriminate|]. result_step.
    destruct (mapM f l) as [e|ys'] eqn:Hl; [discriminate|]. result_step.
    intros [= <-]. destruct k as [|k]; cbn [nth_error].
    + intros [= ->]. now exists a.
    + intros Hk. now apply (IH ys').
Qed.

Lemma range0_nth (n k i : nat) :
  nth_error (range0 n 24) k = Some i -> i = (24 * k)%nat.
Proof.
  unfold range0. rewrite nth_error_map.
  destruct (nth_error (seq 0 ((n + 24 - 1) / 24)) k) as [j|] eqn:Hj;
    [|discriminate].
  cbn. intros [= <-].
  assert (Hlt : (k < length (seq 0 ((n + 24 - 1) / 24)))%nat)
    by (apply nth_error_Some; congruence).
  rewrite nth_error_seq in Hj.
  rewrite length_seq in Hlt. apply Nat.ltb_lt in Hlt. rewrite Hlt in Hj.
  injection Hj as <-. lia.
Qed.

(** With an integer decoder that rejects arguments that are not 8 bytes
    long, a control block that parses is made of whole 24-byte groups:
    its length is 24 times the number of tuples returned, and the k-th
    tuple holds the decodings of the three 8-byte fields of the k-th
    group. *)
Theorem parse_control_exact (bcontrol : bytes) (tcontrol : list control) :
  (forall b, length b <> 8%nat -> decode_int64 b = None) ->
  parse_control bcontrol = Ok tcontrol ->
  length bcontrol = (24 * length tcontrol)%nat
  /\ forall k x y z,
       nth_error tcontrol k = Some (x, y, z) ->
       decode_int64 (slice bcontrol (24 * k) (24 * k + 8)) = Some x
       /\ decode_int64 (slice bcontrol (24 * k + 8) (24 * k + 16)) = Some y
       /\ decode_int64 (slice bcontrol (24 * k + 16) (24 * k + 24)) = Some z.
Proof.
  intros Hdec Hparse. split.
  - destruct (Nat.eq_dec (length bcontrol mod 24) 0) as [Hmod|Hmod].
    + unfold parse_control in Hparse. apply mapM_length in Hparse.
      unfold range0 in Hparse. rewrite length_map, length_seq in Hparse.
      rewrite Hparse.
      pose proof (Nat.div_mod_eq (length bcontrol) 24) as Hn.
      rewrite Hmod in Hn.
      replace (length bcontrol + 24 - 1)%nat
        with (length bcontrol / 24 * 24 + 23)%nat by lia.
      rewrite Nat.div_add_l by discriminate.
      rewrite (Nat.div_small 23 24) by lia. lia.
    + rewrite (parse_control_ragged _ Hdec Hmod) in Hparse.
      discriminate Hparse.
  - intros k x y z Hk. unfold parse_control in Hparse.
    destruct (mapM_nth _ _ _ _ _ Hparse Hk) as (i & Hi & Htuple).
    apply range0_nth in Hi. subst i.
    unfold control_tuple, core_decode_int64 in Htuple.
    destruct (decode_int64 (slice bcontrol (24 * k) (24 * k + 8)))
      as [x'|]; [|discriminate]. result_step.
    destruct (decode_int64 (slice bcontrol (24 * k + 8) (24 * k + 16)))
      as [y'|]; [|discriminate]. result_step.
    destruct (decode_int64 (slice bcontrol (24 * k + 16) (24 * k + 24)))
      as [z'|]; [|discriminate]. result_step.
    intros. injection Htuple as -> -> ->. auto.
Qed.

End ControlStream.

(* ================================================================= *)
(** ** Containers that parse *)

Section Parsing.

Context {codec : Int64Codec} {brotli : BrotliLib} {bz2 : Bz2Lib}
        {engine : CoreEngine}.

Lemma read_count_len (b : bytes) (available : nat) :
  read_count (Some (len b)) available = length b.
Proof.
  unfold read_count, len.
  destruct (Z.ltb_spec (Z.of_nat (length b)) 0); [lia|]. apply Nat2Z.id.
Qed.

Lemma firstn_block (b rest : bytes) : firstn (length b) (b ++ rest) = b.
Proof.
  rewrite firstn_app, firstn_all, Nat.sub_diag. cbn. apply app_nil_r.
Qed.

Lemma skipn_block (b rest : bytes) : skipn (length b) (b ++ rest) = rest.
Proof. rewrite skipn_app, skipn_all, Nat.sub_diag. reflexivity. Qed.

Lemma magic_read (m rest : bytes) (rs : list (option Z)) :
  length m = 8%nat ->
  firstn 8 (unread (mkStream (m ++ rest) rs)) = m
  /\ after_magic (mkStream (m ++ rest) rs) = mkStream rest (rs ++ [Some 8]).
Proof.
  unfold after_magic; cbn [unread reads]. intros <-.
  now rewrite firstn_block, skipn_block.
Qed.

Lemma block_read (b rest : bytes) (rs : list (option Z)) :
  read_data (Some (len b)) (mkStream (b ++ rest) rs) = b
  /\ after_read (Some (len b)) (mkStream (b ++ rest) rs)
     = mkStream rest (rs ++ [Some (len b)]).
Proof.
  unfold read_data, after_read; cbn [unread reads].
  now rewrite read_count_len, firstn_block, skipn_block.
Qed.

Lemma rest_read (rest : bytes) (rs : list (option Z)) :
  read_data None (mkStream rest rs) = rest
  /\ after_read None (mkStream rest rs) = mkStream [] (rs ++ [None]).
Proof.
  unfold read_data, after_read; cbn [unread reads read_count].
  now rewrite firstn_all, skipn_all.
Qed.

Lemma decompress_read_brotli (size : option Z) (fi : stream) (out : bytes) :
  brotli_decompress (read_data size fi) = Some out ->
  decompress_read BrotliModule size fi = (Ok out, after_read size fi).
Proof.
  intros H. rewrite decompress_read_eq. cbn [getattr_decompress Ok].
  now rewrite H.
Qed.

(** The stream after the magic and the three fields of a container laid
    out as [magic ++ f1 ++ f2 ++ f3 ++ payload]. *)
Lemma header_read (magic f1 f2 f3 payload : bytes) (rs : list (option Z))
    (ds : decompressor * decompressor * decompressor)
    (header_only : bool) (lc ld lt : Z) :
  length magic = 8%nat -> length f1 = 8%nat -> length f2 = 8%nat ->
  length f3 = 8%nat ->
  dispatch magic = Ok ds ->
  decode_int64 f1 = Some lc -> decode_int64 f2 = Some ld ->
  decode_int64 f3 = Some lt ->
  read_patch header_only (mkStream (magic ++ f1 ++ f2 ++ f3 ++ payload) rs)
  = read_payload ds header_only lc ld lt
      (mkStream payload (rs ++ [Some 8; Some 8; Some 8; Some 8])).
Proof.
  intros Lm L1 L2 L3 Hdis H1 H2 H3. rewrite read_patch_dispatch.
  destruct (magic_read magic (f1 ++ f2 ++ f3 ++ payload) rs Lm) as [-> ->].
  rewrite Hdis. result_step.
  destruct (magic_read f1 (f2 ++ f3 ++ payload) (rs ++ [Some 8]) L1)
    as [E1 S1].
  destruct (magic_read f2 (f3 ++ payload) ((rs ++ [Some 8]) ++ [Some 8]) L2)
    as [E2 S2].
  destruct (magic_read f3 payload
              (((rs ++ [Some 8]) ++ [Some 8]) ++ [Some 8]) L3) as [E3 S3].
  rewrite (read_blocks_run ds header_only _ lc ld lt).
  - rewrite S1, S2, S3. rewrite <- !app_assoc. reflexivity.
  - now rewrite E1.
  - now rewrite S1, E2.
  - now rewrite S1, S2, E3.
Qed.

Lemma dispatch_selected (magic : bytes) (tc td te : CompressionType) :
  is_versioned magic ->
  selects magic 5 tc -> selects magic 6 td -> selects magic 7 te ->
  dispatch magic
  = Ok (create_bsdf2_decompressor tc, create_bsdf2_decompressor td,
        create_bsdf2_decompressor te).
Proof.
  intros Hv Hc Hd He. rewrite (dispatch_versioned _ Hv).
  rewrite (selector_selects _ _ _ Hc), (selector_selects _ _ _ Hd),
    (selector_selects _ _ _ He). reflexivity.
Qed.

Lemma read_patch_full_run
    (magic f1 f2 f3 bc bd be : bytes) (rs : list (option Z)) (lt : Z)
    (flat : bytes) (tcontrol : list control) (bdiff bextra : bytes) :
  length magic = 8%nat -> length f1 = 8%nat -> length f2 = 8%nat ->
  length f3 = 8%nat ->
  is_versioned magic ->
  selects magic 5 Brotli -> selects magic 6 Brotli ->
  selects magic 7 Brotli ->
  decode_int64 f1 = Some (len bc) -> decode_int64 f2 = Some (len bd) ->
  decode_int64 f3 = Some lt ->
  brotli_decompress bc = Some flat -> parse_control flat = Ok tcontrol ->
  brotli_decompress bd = Some bdiff -> brotli_decompress be = Some bextra ->
  read_patch false (mkStream (magic ++ f1 ++ f2 ++ f3 ++ bc ++ bd ++ be) rs)
  = (Ok (Full lt tcontrol bdiff bextra),
     mkStream []
       (rs ++ [Some 8; Some 8; Some 8; Some 8;
               Some (len bc); Some (len bd); None])).
Proof.
  intros Lm L1 L2 L3 Hv S5 S6 S7 H1 H2 H3 Hc Hp Hd He.
  rewrite (header_read magic f1 f2 f3 _ rs _ false _ _ _ Lm L1 L2 L3
             (dispatch_selected _ _ _ _ Hv S5 S6 S7) H1 H2 H3).
  unfold read_payload. cbn [create_bsdf2_decompressor].
  destruct (block_read bc (bd ++ be)
              (rs ++ [Some 8; Some 8; Some 8; Some 8])) as [Dc Sc].
  rewrite (bind_run _ _ _ _ _ (decompress_read_brotli _ _ flat
                                 ltac:(rewrite Dc; exact Hc))).
  rewrite Sc. unfold bind at 1, lift at 1. rewrite Hp. result_step.
  destruct (block_read bd be
              ((rs ++ [Some 8; Some 8; Some 8; Some 8]) ++ [Some (len bc)]))
    as [Dd Sd].
  rewrite (bind_run _ _ _ _ _ (decompress_read_brotli _ _ bdiff
                                 ltac:(rewrite Dd; exact Hd))).
  rewrite Sd.
  destruct (rest_read be
              (((rs ++ [Some 8; Some 8; Some 8; Some 8]) ++ [Some (len bc)])
               ++ [Some (len bd)])) as [De Se].
  rewrite (bind_run _ _ _ _ _ (decompress_read_brotli _ _ bextra
                                 ltac:(rewrite De; exact He))).
  rewrite Se. unfold ret. rewrite <- !app_assoc. reflexivity.
Qed.

(** A container laid out as magic, three 8-byte fields, control block,
    diff block, extra block, with the versioned prefix, the three
    selectors equal to 2 (brotli), the first two fields decoding to the
    lengths of the control and diff blocks, and three blocks that
    decompress (the control block to a buffer that parses), is parsed in
    full: [read_patch] returns the third field, the control tuples and the
    two decompressed blocks, after exactly seven reads that leave the
    stream at its end. *)
Theorem read_patch_well_formed
    (magic f1 f2 f3 bc bd be : bytes) (lt : Z)
    (flat : bytes) (tcontrol : list control) (bdiff bextra : bytes) :
  length magic = 8%nat -> length f1 = 8%nat -> length f2 = 8%nat ->
  length f3 = 8%nat ->
  is_versioned magic ->
  selects magic 5 Brotli -> selects magic 6 Brotli ->
  selects magic 7 Brotli ->
  decode_int64 f1 = Some (len bc) -> decode_int64 f2 = Some (len bd) ->
  decode_int64 f3 = Some lt ->
  brotli_decompress bc = Some flat -> parse_control flat = Ok tcontrol ->
  brotli_decompress bd = Some bdiff -> brotli_decompress be = Some bextra ->
  read_patch false (BytesIO (magic ++ f1 ++ f2 ++ f3 ++ bc ++ bd ++ be))
  = (Ok (Full lt tcontrol bdiff bextra),
     mkStream []
       [Some 8; Some 8; Some 8; Some 8; Some (len bc); Some (len bd); None]).
Proof.
  intros. unfold BytesIO.
  now rewrite (read_patch_full_run magic f1 f2 f3 bc bd be [] lt flat
                 tcontrol bdiff bextra).
Qed.

(** [patch] on such a container hands exactly the packaged target length,
    control tuples, diff block and extra block to the engine, together
    with the source, and returns what the engine returns. *)
Theorem patch_well_formed
    (src magic f1 f2 f3 bc bd be : bytes) (lt : Z)
    (flat : bytes) (tcontrol : list control) (bdiff bextra : bytes) :
  length magic = 8%nat -> length f1 = 8%nat -> length f2 = 8%nat ->
  length f3 = 8%nat ->
  is_versioned magic ->
  selects magic 5 Brotli -> selects magic 6 Brotli ->
  selects magic 7 Brotli ->
  decode_int64 f1 = Some (len bc) -> decode_int64 f2 = Some (len bd) ->
  decode_int64 f3 = Some lt ->
  brotli_decompress bc = Some flat -> parse_control flat = Ok tcontrol ->
  brotli_decompress bd = Some bdiff -> brotli_decompress be = Some bextra ->
  patch src (magic ++ f1 ++ f2 ++ f3 ++ bc ++ bd ++ be)
  = core_patch src lt tcontrol bdiff bextra.
Proof.
  intros. unfold patch, BytesIO.
  now rewrite (read_patch_full_run magic f1 f2 f3 bc bd be [] lt flat
                 tcontrol bdiff bextra).
Qed.

(** Header-only parsing needs the control channel only: with a brotli
    control selector, any two members as diff and extra selectors (also
    the unusable ones), any values in the second and third fields and any
    bytes after the control block, [read_patch] in header-only mode
    returns the three fields and the control tuples after five reads and
    leaves everything behind the control block unread. *)
Theorem read_patch_header_only_run
    (magic f1 f2 f3 bc rest : bytes) (rs : list (option Z))
    (td te : CompressionType) (ld lt : Z)
    (flat : bytes) (tcontrol : list control) :
  length magic = 8%nat -> length f1 = 8%nat -> length f2 = 8%nat ->
  length f3 = 8%nat ->
  is_versioned magic ->
  selects magic 5 Brotli -> selects magic 6 td -> selects magic 7 te ->
  decode_int64 f1 = Some (len bc) -> decode_int64 f2 = Some ld ->
  decode_int64 f3 = Some lt ->
  brotli_decompress bc = Some flat -> parse_control flat = Ok tcontrol ->
  read_patch true (mkStream (magic ++ f1 ++ f2 ++ f3 ++ bc ++ rest) rs)
  = (Ok (HeaderOnly (len bc) ld lt tcontrol),
     mkStream rest
       (rs ++ [Some 8; Some 8; Some 8; Some 8; Some (len bc)])).
Proof.
  intros Lm L1 L2 L3 Hv S5 S6 S7 H1 H2 H3 Hc Hp.
  rewrite (header_read magic f1 f2 f3 _ rs _ true _ _ _ Lm L1 L2 L3
             (dispatch_selected _ _ _ _ Hv S5 S6 S7) H1 H2 H3).
  cbn [create_bsdf2_decompressor].
  destruct (block_read bc rest (rs ++ [Some 8; Some 8; Some 8; Some 8]))
    as [Dc Sc].
  rewrite (read_payload_header_run _ _ _ _ _ _ flat tcontrol
             ltac:(rewrite Dc; exact Hc) Hp).
  rewrite Sc, <- app_assoc. reflexivity.
Qed.

End Parsing.

(* ================================================================= *)
(** ** What a successful parse tells *)

Section Success.

Context {codec : Int64Codec} {brotli : BrotliLib} {bz2 : Bz2Lib}.

Lemma selector_ok (magic : bytes) (k : nat) (d : decompressor) :
  selector magic k = Ok d ->
  exists t, selects magic k t /\ d = create_bsdf2_decompressor t.
Proof.
  unfold selector.
  destruct (nth_error magic k) as [sel|] eqn:Hnth; [|discriminate].
  result_step. unfold CompressionType_of_value.
  destruct (Z.eqb_spec (byte_to_Z sel) 0) as [H0|_];
    [|destruct (Z.eqb_spec (byte_to_Z sel) 1) as [H1|_];
      [|destruct (Z.eqb_spec (byte_to_Z sel) 2) as [H2|_]]];
    result_step; try discriminate; intros [= <-].
  - exists NoCompression. split; [now exists sel | reflexivity].
  - exists BZ2. split; [now exists sel | reflexivity].
  - exists Brotli. split; [now exists sel | reflexivity].
Qed.

Lemma selector_brotli (magic : bytes) (k : nat) :
  selector magic k = Ok BrotliModule -> selects magic k Brotli.
Proof.
  intros H. apply selector_ok in H as (t & Hsel & Ht).
  destruct t; first [discriminate Ht | exact Hsel].
Qed.

Lemma dispatch_brotli_versioned (magic : bytes) (dd de : decompressor) :
  dispatch magic = Ok (BrotliModule, dd, de) -> is_versioned magic.
Proof.
  unfold dispatch, is_versioned.
  destruct (bytes_eqb (firstn 4 magic) (firstn 4 BSDF2_MAGIC)) eqn:Hv.
  - intros _. now apply bytes_eqb_eq.
  - destruct (bytes_eqb (firstn 7 magic) (firstn 7 BSDIFF_MAGIC));
      discriminate.
Qed.

(** The only containers [read_patch] ever parses are versioned ones with a
    brotli control channel, and, in the full mode, brotli diff and extra
    channels too: a successful parse implies the versioned prefix, a
    header of at least 8 bytes with member values at offsets 5, 6 and 7,
    the value 2 at offset 5 and, unless header-only, at offsets 6 and 7. *)
Theorem read_patch_ok_selectors
    (header_only : bool) (fi fi' : stream) (r : patch_result) :
  read_patch header_only fi = (Ok r, fi') ->
  is_versioned (firstn 8 (unread fi))
  /\ (8 <= length (unread fi))%nat
  /\ selects (firstn 8 (unread fi)) 5 Brotli
  /\ (exists td, selects (firstn 8 (unread fi)) 6 td)
  /\ (exists te, selects (firstn 8 (unread fi)) 7 te)
  /\ (header_only = false ->
      selects (firstn 8 (unread fi)) 6 Brotli
      /\ selects (firstn 8 (unread fi)) 7 Brotli).
Proof.
  intros Hok.
  assert (Hdis : exists dd de,
             dispatch (firstn 8 (unread fi)) = Ok (BrotliModule, dd, de)
             /\ (header_only = false ->
                 dd = BrotliModule /\ de = BrotliModule)).
  { destruct header_only.
    - apply read_patch_header_ok_brotli in Hok as (dd & de & Hdis).
      exists dd, de. split; [exact Hdis | discriminate].
    - apply read_patch_full_ok_brotli in Hok.
      exists BrotliModule, BrotliModule. auto. }
  destruct Hdis as (dd & de & Hdis & Hfull).
  pose proof (dispatch_brotli_versioned _ _ _ Hdis) as Hv.
  destruct (dispatch_versioned_ok _ _ _ _ Hv Hdis) as (H5 & H6 & H7).
  pose proof (selector_brotli _ _ H5) as S5.
  destruct (selector_ok _ _ _ H6) as (td & S6 & Etd).
  destruct (selector_ok _ _ _ H7) as (te & S7 & Ete).
  split; [exact Hv|]. split.
  - destruct S7 as (sel & Hnth & _).
    assert (Hlt : (7 < length (firstn 8 (unread fi)))%nat)
      by (apply nth_error_Some; congruence).
    rewrite length_firstn in Hlt. lia.
  - split; [exact S5|]. split; [now exists td|]. split; [now exists te|].
    intros Hmode. destruct (Hfull Hmode) as [-> ->].
    split; now apply selector_brotli.
Qed.

Lemma read_payload_full_state
    (ds : decompressor * decompressor * decompressor) (lc ld lt : Z)
    (fi fi' : stream) (r : patch_result) :
  read_payload ds false lc ld lt fi = (Ok r, fi') ->
  fi' = after_read None (after_read (Some ld) (after_read (Some lc) fi)).
Proof.
  destruct ds as [[dc dd] de]. unfold read_payload. intros H.
  apply bind_ok in H as (bcontrol & fi1 & Hc & H).
  apply decompress_read_ok in Hc as (_ & _ & ->).
  apply bind_ok in H as (tcontrol & fi2 & Ht & H).
  unfold lift in Ht. injection Ht as _ <-.
  apply bind_ok in H as (bdiff & fi3 & Hd & H).
  apply decompress_read_ok in Hd as (_ & _ & ->).
  apply bind_ok in H as (bextra & fi4 & He & H).
  apply decompress_read_ok in He as (_ & _ & ->).
  unfold ret in H. now injection H as _ <-.
Qed.

Lemma after_header_state (fi : stream) :
  after_magic (after_magic (after_magic (after_magic fi)))
  = mkStream (skipn 32 (unread fi))
             (reads fi ++ [Some 8; Some 8; Some 8; Some 8]).
Proof.
  unfold after_magic; cbn [unread reads].
  rewrite !skipn_skipn, <- !app_assoc. reflexivity.
Qed.

(** A successful full parse makes exactly seven reads (the magic, the
    three fields, the control block with the declared control length, the
    diff block with the declared diff length, then everything that is
    left) and ends with nothing left unread. *)
Theorem read_patch_full_consumes (fi fi' : stream) (r : patch_result) :
  read_patch false fi = (Ok r, fi') ->
  exists len_control len_diff,
    decode_int64 (slice (unread fi) 8 16) = Some len_control
    /\ decode_int64 (slice (unread fi) 16 24) = Some len_diff
    /\ unread fi' = []
    /\ reads fi' = reads fi ++ [Some 8; Some 8; Some 8; Some 8;
                                Some len_control; Some len_diff; None].
Proof.
  intros Hok. apply read_patch_ok in Hok as (ds & _ & H).
  apply read_blocks_ok in H as (lc & ld & lt & Hc & Hd & _ & H).
  destruct (header_fields fi) as (E1 & E2 & _).
  rewrite E1 in Hc. rewrite E2 in Hd.
  apply read_payload_full_state in H. rewrite after_header_state in H.
  exists lc, ld. split; [exact Hc|]. split; [exact Hd|]. subst fi'.
  unfold after_read; cbn [unread reads read_count]. split.
  - apply skipn_all.
  - rewrite <- !app_assoc. reflexivity.
Qed.

(** A successful header-only parse makes exactly five reads and leaves
    unread whatever follows the control block: the stream stands
    [len_control] bytes (all the rest if [len_control] is negative) behind
    the 32-byte header. *)
Theorem read_patch_header_only_position
    (fi fi' : stream) (r : patch_result) :
  read_patch true fi = (Ok r, fi') ->
  exists len_control,
    decode_int64 (slice (unread fi) 8 16) = Some len_control
    /\ unread fi'
       = skipn (read_count (Some len_control) (length (unread fi) - 32))
           (skipn 32 (unread fi))
    /\ reads fi' = reads fi ++ [Some 8; Some 8; Some 8; Some 8;
                                Some len_control].
Proof.
  intros Hok. apply read_patch_ok in Hok as ([[dc dd] de] & _ & H).
  apply read_blocks_ok in H as (lc & ld & lt & Hc & _ & _ & H).
  destruct (header_fields fi) as (E1 & _). rewrite E1 in Hc.
  apply read_payload_header_ok in H as (_ & _ & _ & _ & _ & _ & ->).
  rewrite after_header_state.
  exists lc. split; [exact Hc|].
  unfold after_read; cbn [unread reads]. rewrite length_skipn.
  split; [reflexivity|]. rewrite <- !app_assoc. reflexivity.
Qed.

(* ----------------------------------------------------------------- *)
(** *** Headers at the edges *)

Lemma selector_missing (magic : bytes) (k : nat) :
  nth_error magic k = None -> selector magic k = Raise IndexError.
Proof. intros H. unfold selector. now rewrite H. Qed.

Lemma selector_valid (magic : bytes) (k : nat) (sel : byte) :
  nth_error magic k = Some sel -> 0 <= byte_to_Z sel <= 2 ->
  exists d, selector magic k = Ok d.
Proof.
  intros Hnth Hval. unfold selector. rewrite Hnth. result_step.
  destruct (CompressionType_of_value_valid _ Hval) as [t ->]. now eexists.
Qed.

(** A stream of fewer than 8 bytes that starts like a versioned header
    (so 4 to 7 bytes long), with member values in the selector bytes it
    does hold, makes [read_patch] raise [IndexError] on the first missing
    selector, not the [ValueError] of an unknown magic. *)
Theorem read_patch_short_versioned (header_only : bool) (fi : stream) :
  is_versioned (firstn 8 (unread fi)) ->
  (length (unread fi) < 8)%nat ->
  (forall k sel, (5 <= k)%nat -> nth_error (unread fi) k = Some sel ->
                 0 <= byte_to_Z sel <= 2) ->
  read_patch header_only fi = (Raise IndexError, after_magic fi).
Proof.
  intros Hv Hlen Hvalid. rewrite read_patch_dispatch.
  rewrite (dispatch_versioned _ Hv).
  rewrite firstn_all2 in * by lia.
  assert (Hsel : forall k, (5 <= k)%nat ->
            (exists d, selector (unread fi) k = Ok d)
            \/ selector (unread fi) k = Raise IndexError).
  { intros k Hk. destruct (nth_error (unread fi) k) as [sel|] eqn:Hnth.
    - left. apply (selector_valid _ _ _ Hnth). now apply (Hvalid k).
    - right. now apply selector_missing. }
  assert (H7 : selector (unread fi) 7 = Raise IndexError).
  { apply selector_missing. apply nth_error_None. lia. }
  destruct (Hsel 5%nat ltac:(lia)) as [[d5 ->]| ->]; [|reflexivity].
  destruct (Hsel 6%nat ltac:(lia)) as [[d6 ->]| ->]; [|reflexivity].
  rewrite H7. reflexivity.
Qed.

(** The version characters of the two magics are never looked at: the
    byte at offset 4 of a stream that starts with [BSDF], and the byte at
    offset 7 of a stream that starts with [BSDIFF4], can be replaced by
    any other byte without changing what [read_patch] returns or what it
    leaves of the stream. *)
Theorem read_patch_version_byte_ignored
    (header_only : bool) (x y : byte) (rest : bytes)
    (rs : list (option Z)) :
  read_patch header_only
    (mkStream (firstn 4 BSDF2_MAGIC ++ x :: rest) rs)
  = read_patch header_only
      (mkStream (firstn 4 BSDF2_MAGIC ++ y :: rest) rs)
  /\ read_patch header_only
       (mkStream (firstn 7 BSDIFF_MAGIC ++ x :: rest) rs)
     = read_patch header_only
         (mkStream (firstn 7 BSDIFF_MAGIC ++ y :: rest) rs).
Proof.
  split.
  - rewrite !read_patch_dispatch.
    assert (Hv : forall z,
              is_versioned
                (firstn 8 (unread (mkStream (firstn 4 BSDF2_MAGIC ++ z :: rest)
                                     rs)))) by reflexivity.
    rewrite (dispatch_versioned _ (Hv x)), (dispatch_versioned _ (Hv y)).
    reflexivity.
  - rewrite !read_patch_dispatch.
    assert (Hl : forall z,
              is_legacy
                (firstn 8 (unread (mkStream (firstn 7 BSDIFF_MAGIC ++ z :: rest)
                                     rs)))) by reflexivity.
    rewrite (dispatch_legacy _ (Hl x)), (dispatch_legacy _ (Hl y)).
    reflexivity.
Qed.

(** Nothing [write_patch] writes can be read back: on the bytes it has
    written to an empty stream, for any target length, control tuples and
    blocks, whether it returned or raised part of the way, [read_patch]
    raises in both modes ([TypeError] on the control channel, or the
    integer decoder's error on a length field). *)
Theorem read_patch_of_write_patch
    (header_only : bool) (len_dst : Z) (tcontrol : list control)
    (bdiff bextra : bytes) :
  fst (read_patch header_only
         (BytesIO (snd (write_patch len_dst tcontrol bdiff bextra []))))
  = Raise TypeError
  \/ fst (read_patch header_only
           (BytesIO (snd (write_patch len_dst tcontrol bdiff bextra []))))
     = Raise Int64Error.
Proof.
  destruct (write_patch_prefix [] len_dst tcontrol bdiff bextra) as [w ->].
  apply read_patch_legacy_raises. reflexivity.
Qed.

(** An error of the header-only parse is an error of the full parse: when
    [read_patch] raises in header-only mode, it raises the same error in
    the full mode, at the same point of the stream (the two modes differ
    only after the control tuples are parsed). *)
Theorem read_patch_header_error_shared (fi fi' : stream) (e : exn) :
  read_patch true fi = (Raise e, fi') ->
  read_patch false fi = (Raise e, fi').
Proof.
  rewrite !read_patch_dispatch.
  destruct (dispatch (firstn 8 (unread fi))) as [e0|[[dc dd] de]];
    [trivial|].
  unfold read_blocks, bind.
  destruct (read_int64 (after_magic fi)) as [[e1|lc] f1]; [trivial|].
  destruct (read_int64 f1) as [[e2|ld] f2]; [trivial|].
  destruct (read_int64 f2) as [[e3|lt] f3]; [trivial|].
  unfold read_payload, bind.
  destruct (decompress_read dc (Some lc) f3) as [[e4|bcontrol] f4];
    [trivial|].
  unfold lift. destruct (parse_control bcontrol) as [e5|tcontrol];
    [trivial|].
  discriminate.
Qed.

End Success.

(* ================================================================= *)
(** ** The reads of a parse *)

Section Traces.

Context {codec : Int64Codec} {brotli : BrotliLib}.

Lemma read_payload_trace
    (ds : decompressor * decompressor * decompressor) (header_only : bool)
    (lc ld lt : Z) (fi : stream) :
  exists suffix,
    reads (snd (read_payload ds header_only lc ld lt fi)) = reads fi ++ suffix
    /\ incl suffix [Some lc; Some ld; None].
Proof.
  destruct ds as [[dc dd] de]. unfold read_payload, bind.
  rewrite decompress_read_eq.
  destruct (getattr_decompress dc) as [e|mc].
  { exists []. split; [now rewrite app_nil_r | apply incl_nil_l]. }
  destruct (mc _) as [e|bcontrol].
  { exists [Some lc]. split; [reflexivity|]. intros s [<-|[]]. now left. }
  unfold lift. destruct (parse_control bcontrol) as [e|tcontrol].
  { exists [Some lc]. split; [reflexivity|]. intros s [<-|[]]. now left. }
  destruct header_only.
  { exists [Some lc]. split; [reflexivity|]. intros s [<-|[]]. now left. }
  rewrite decompress_read_eq.
  destruct (getattr_decompress dd) as [e|md].
  { exists [Some lc]. split; [reflexivity|]. intros s [<-|[]]. now left. }
  destruct (md _) as [e|bdiff].
  { exists [Some lc; Some ld]. split.
    - cbn [snd after_read reads]. now rewrite <- app_assoc.
    - intros s [<-|[<-|[]]]; cbn; auto. }
  rewrite decompress_read_eq.
  destruct (getattr_decompress de) as [e|me].
  { exists [Some lc; Some ld]. split.
    - cbn [snd after_read reads]. now rewrite <- app_assoc.
    - intros s [<-|[<-|[]]]; cbn; auto. }
  exists [Some lc; Some ld; None]. split; [|apply incl_refl].
  destruct (me _) as [e|bextra]; cbn [snd after_read reads ret];
    now rewrite <- !app_assoc.
Qed.

(** Every read of [read_patch] asks for 8 bytes, for the rest of the
    stream, or for the number of bytes declared in the first or in the
    second length field. *)
Lemma read_patch_trace (header_only : bool) (fi : stream) :
  exists suffix,
    reads (snd (read_patch header_only fi)) = reads fi ++ suffix
    /\ forall s, In s suffix ->
         s = Some 8 \/ s = None
         \/ (exists n, s = Some n
                       /\ decode_int64 (slice (unread fi) 8 16) = Some n)
         \/ (exists n, s = Some n
                       /\ decode_int64 (slice (unread fi) 16 24) = Some n).
Proof.
  rewrite read_patch_dispatch.
  destruct (dispatch (firstn 8 (unread fi))) as [e|ds].
  { exists [Some 8]. split; [reflexivity|]. intros s [<-|[]]. now left. }
  destruct (header_fields fi) as (E1 & E2 & _).
  unfold read_blocks, bind.
  rewrite read_int64_eq, E1. unfold core_decode_int64.
  destruct (decode_int64 (slice (unread fi) 8 16)) as [lc|] eqn:Hc.
  2:{ exists [Some 8; Some 8]. split.
      - cbn [snd of_option Raise after_magic reads]. now rewrite <- app_assoc.
      - intros s [<-|[<-|[]]]; now left. }
  cbn [of_option Ok]. rewrite read_int64_eq, E2. unfold core_decode_int64.
  destruct (decode_int64 (slice (unread fi) 16 24)) as [ld|] eqn:Hd.
  2:{ exists [Some 8; Some 8; Some 8]. split.
      - cbn [snd of_option Raise after_magic reads]. now rewrite <- !app_assoc.
      - intros s [<-|[<-|[<-|[]]]]; now left. }
  cbn [of_option Ok]. rewrite read_int64_eq. unfold core_decode_int64.
  destruct (decode_int64
              (firstn 8 (unread (after_magic (after_magic (after_magic fi))))))
    as [lt|].
  2:{ exists [Some 8; Some 8; Some 8; Some 8]. split.
      - cbn [snd of_option Raise after_magic reads]. now rewrite <- !app_assoc.
      - intros s [<-|[<-|[<-|[<-|[]]]]]; now left. }
  cbn [of_option Ok].
  destruct (read_payload_trace ds header_only lc ld lt
              (after_magic (after_magic (after_magic (after_magic fi)))))
    as (suffix & Hreads & Hincl).
  exists ([Some 8; Some 8; Some 8; Some 8] ++ suffix). split.
  - rewrite Hreads. cbn [after_magic reads]. now rewrite <- !app_assoc.
  - intros s Hin. apply in_app_or in Hin as [Hin|Hin].
    + left. destruct Hin as [<-|[<-|[<-|[<-|[]]]]]; reflexivity.
    + apply Hincl in Hin. destruct Hin as [<-|[<-|[<-|[]]]].
      * right. right. left. now exists lc.
      * right. right. right. now exists ld.
      * right. now left.
Qed.

End Traces.

(* ================================================================= *)
(** ** The file-level functions *)

Module FileFacts.

Import Files.

Section Facts.

Context {ospath : OsPath} {filereads : FileReads} {codec : Int64Codec}
        {brotli : BrotliLib} {bz2 : Bz2Lib} {engine : CoreEngine}.

Lemma put_same (fs : store) (p : string) (data : bytes) :
  put fs p data p = Some data.
Proof. unfold put. now rewrite String.eqb_refl. Qed.

Lemma put_other (fs : store) (p q : string) (data : bytes) :
  q <> p -> put fs p data q = fs q.
Proof. intros H. unfold put. apply String.eqb_neq in H. now rewrite H. Qed.

Lemma put_put (fs : store) (p q : string) (old data : bytes) :
  put (put fs p old) p data q = put fs p data q.
Proof. unfold put. now destruct (String.eqb q p). Qed.

Lemma io_bind_run {A B} (m : IO A) (k : A -> IO B) (fs fs1 : store) (a : A) :
  m fs = (inr a, fs1) -> io_bind m k fs = k a fs1.
Proof. unfold io_bind. now intros ->. Qed.

Lemma io_bind_raise {A B} (m : IO A) (k : A -> IO B) (fs fs1 : store)
    (e : os_exn) :
  m fs = (inl e, fs1) -> io_bind m k fs = (inl e, fs1).
Proof. unfold io_bind. now intros ->. Qed.

Lemma open_rb_some (path : string) (fs : store) (data : bytes) :
  fs (abspath path) = Some data -> open_rb path fs = (inr (abspath path), fs).
Proof. unfold open_rb. now intros ->. Qed.

Lemma open_rb_none (path : string) (fs : store) :
  fs (abspath path) = None ->
  open_rb path fs = (inl (FileNotFoundError path), fs).
Proof. unfold open_rb. now intros ->. Qed.

Lemma content_some (h : handle) (fs : store) (data : bytes) :
  fs h = Some data -> content h fs = (inr data, fs).
Proof. unfold content. now intros ->. Qed.

Lemma read_data_some (path : string) (fs : store) (data : bytes) :
  fs (abspath path) = Some data -> read_data path fs = (inr data, fs).
Proof.
  intros H. unfold read_data.
  rewrite (io_bind_run _ _ _ _ _ (open_rb_some _ _ _ H)).
  now apply content_some.
Qed.

Lemma read_data_none (path : string) (fs : store) :
  fs (abspath path) = None ->
  read_data path fs = (inl (FileNotFoundError path), fs).
Proof.
  intros H. unfold read_data. apply io_bind_raise. now apply open_rb_none.
Qed.

Lemma patch_from_some (data : bytes) (fi : handle) (fs : store)
    (patch_data : bytes) :
  fs fi = Some patch_data ->
  patch_from data fi fs = (apply_patch data patch_data, fs).
Proof.
  intros H. unfold patch_from.
  rewrite (io_bind_run _ _ _ _ _ (content_some _ _ _ H)). reflexivity.
Qed.

(** What [file_diff] does when both inputs exist: the patch file is
    emptied, and [write_patch] runs on it. *)
Lemma file_diff_run
    (fs : store) (src_path dst_path patch_path : string) (src dst : bytes) :
  fs (abspath src_path) = Some src ->
  fs (abspath dst_path) = Some dst ->
  file_diff src_path dst_path patch_path fs
  = let w := write_patch (len dst) (fst (fst (core_diff src dst)))
               (snd (fst (core_diff src dst))) (snd (core_diff src dst)) [] in
    (match fst w with
     | inl e => inl (Raised e)
     | inr _ => inr tt
     end,
     put (put fs (abspath patch_path) []) (abspath patch_path) (snd w)).
Proof.
  intros Hs Hd. unfold file_diff.
  rewrite (io_bind_run _ _ _ _ _ (read_data_some _ _ _ Hs)).
  rewrite (io_bind_run _ _ _ _ _ (read_data_some _ _ _ Hd)).
  unfold io_bind at 1, open_wb.
  destruct (core_diff src dst) as [[tcontrol bdiff] bextra].
  unfold write_patch_to, io_bind, content. rewrite put_same.
  cbn [fst snd]. cbv zeta.
  now destruct (write_patch (len dst) tcontrol bdiff bextra []) as [r out].
Qed.

Lemma diff_run (src dst : bytes) :
  diff src dst
  = let w := write_patch (len dst) (fst (fst (core_diff src dst)))
               (snd (fst (core_diff src dst))) (snd (core_diff src dst)) [] in
    match fst w with
    | inl e => inl e
    | inr _ => Ok (snd w)
    end.
Proof.
  unfold diff, getvalue_after.
  destruct (core_diff src dst) as [[tcontrol bdiff] bextra].
  cbn [fst snd]. cbv zeta.
  now destruct (write_patch (len dst) tcontrol bdiff bextra []) as [r out].
Qed.

(** [file_diff] on two existing files does what [diff] does on their
    contents.  When [diff] returns, [file_diff] succeeds and leaves in the
    patch file exactly the bytes [diff] returns (whatever the patch file
    held before, and also when it is one of the two inputs), every other
    file unchanged.  When [diff] raises, [file_diff] raises the same error;
    the patch file has been emptied and holds what [write_patch] had
    written, which starts with the magic, and every other file is
    unchanged. *)
Theorem file_diff_writes_diff
    (fs : store) (src_path dst_path patch_path : string) (src dst : bytes) :
  fs (abspath src_path) = Some src ->
  fs (abspath dst_path) = Some dst ->
  match diff src dst with
  | inr patch_bytes =>
      fst (file_diff src_path dst_path patch_path fs) = inr tt
      /\ forall q,
           snd (file_diff src_path dst_path patch_path fs) q
           = if String.eqb q (abspath patch_path) then Some patch_bytes
             else fs q
  | inl e =>
      fst (file_diff src_path dst_path patch_path fs) = inl (Raised e)
      /\ (exists w,
             snd (file_diff src_path dst_path patch_path fs)
               (abspath patch_path) = Some (BSDIFF_MAGIC ++ w))
      /\ forall q,
           q <> abspath patch_path ->
           snd (file_diff src_path dst_path patch_path fs) q = fs q
  end.
Proof.
  intros Hs Hd. rewrite (file_diff_run _ _ _ _ _ _ Hs Hd), diff_run.
  cbv zeta.
  destruct (write_patch_prefix [] (len dst) (fst (fst (core_diff src dst)))
              (snd (fst (core_diff src dst))) (snd (core_diff src dst)))
    as [w Hw].
  destruct (write_patch _ _ _ _ []) as [[e|[]] out]; cbn [fst snd] in *.
  - split; [reflexivity|]. split.
    + exists w. now rewrite put_same, Hw.
    + intros q Hq. now rewrite !put_other by exact Hq.
  - split; [reflexivity|]. intros q. apply put_put.
Qed.

(** When one of the two inputs of [file_diff] does not exist, it raises
    [FileNotFoundError] for the first such path and touches nothing: the
    patch file is neither created nor emptied. *)
Theorem file_diff_missing_input
    (fs : store) (src_path dst_path patch_path : string) :
  fs (abspath src_path) = None \/ fs (abspath dst_path) = None ->
  file_diff src_path dst_path patch_path fs
  = (inl (FileNotFoundError
            (match fs (abspath src_path) with
             | None => src_path
             | Some _ => dst_path
             end)), fs).
Proof.
  intros H. unfold file_diff.
  destruct (fs (abspath src_path)) as [src|] eqn:Hs.
  - destruct H as [H|H]; [discriminate|].
    rewrite (io_bind_run _ _ _ _ _ (read_data_some _ _ _ Hs)).
    apply io_bind_raise. now apply read_data_none.
  - apply io_bind_raise. now apply read_data_none.
Qed.

(** What [file_patch_inplace] does when both files exist. *)
Lemma file_patch_inplace_run
    (fs : store) (path patch_path : string) (data patch_data : bytes) :
  fs (abspath patch_path) = Some patch_data ->
  fs (abspath path) = Some data ->
  file_patch_inplace path patch_path fs
  = match apply_patch data patch_data with
    | inl e => (inl e, fs)
    | inr out =>
        (inr tt,
         put (put fs (abspath path) (out ++ skipn (length out) data))
           (abspath path)
           (firstn (length out) (out ++ skipn (length out) data)))
    end.
Proof.
  intros Hp Hd. unfold file_patch_inplace.
  rewrite (io_bind_run _ _ _ _ _ (open_rb_some _ _ _ Hp)).
  rewrite (io_bind_run _ _ _ _ _ (open_rb_some _ _ _ Hd)).
  rewrite (io_bind_run _ _ _ _ _ (content_some _ _ _ Hd)).
  unfold io_bind at 1. rewrite (patch_from_some _ _ _ _ Hp).
  destruct (apply_patch data patch_data) as [e|out]; [reflexivity|].
  unfold io_bind, write_at_start, truncate. rewrite Hd, put_same.
  reflexivity.
Qed.

(** When [file_patch_inplace] raises, for whatever reason (a missing file,
    a patch that does not parse, an engine error), no file has changed. *)
Theorem file_patch_inplace_failure
    (fs : store) (path patch_path : string) (e : os_exn) :
  fst (file_patch_inplace path patch_path fs) = inl e ->
  snd (file_patch_inplace path patch_path fs) = fs.
Proof.
  destruct (fs (abspath patch_path)) as [patch_data|] eqn:Hp.
  - destruct (fs (abspath path)) as [data|] eqn:Hd.
    + rewrite (file_patch_inplace_run _ _ _ _ _ Hp Hd).
      destruct (apply_patch data patch_data); [reflexivity | discriminate].
    + intros _. unfold file_patch_inplace.
      rewrite (io_bind_run _ _ _ _ _ (open_rb_some _ _ _ Hp)).
      rewrite (io_bind_raise _ _ _ _ _ (open_rb_none _ _ Hd)). reflexivity.
  - intros _. unfold file_patch_inplace.
    rewrite (io_bind_raise _ _ _ _ _ (open_rb_none _ _ Hp)). reflexivity.
Qed.

(** When the patch applies, [file_patch_inplace] leaves in the file exactly
    the bytes the engine returned, also when they are fewer than the file
    held before (the tail is cut off), and changes no other file. *)
Theorem file_patch_inplace_success
    (fs : store) (path patch_path : string) (data patch_data out : bytes) :
  fs (abspath patch_path) = Some patch_data ->
  fs (abspath path) = Some data ->
  apply_patch data patch_data = inr out ->
  fst (file_patch_inplace path patch_path fs) = inr tt
  /\ forall q,
       snd (file_patch_inplace path patch_path fs) q
       = if String.eqb q (abspath path) then Some out else fs q.
Proof.
  intros Hp Hd Hout. rewrite (file_patch_inplace_run _ _ _ _ _ Hp Hd), Hout.
  cbn [fst snd]. split; [reflexivity|]. intros q.
  rewrite put_put. unfold put.
  rewrite firstn_app, firstn_all, Nat.sub_diag. cbn [firstn].
  now rewrite app_nil_r.
Qed.

(** What the two-file branch of [file_patch] does when the patch file
    exists. *)
Lemma file_patch_run
    (fs : store) (src_path dst_path patch_path : string)
    (patch_data : bytes) :
  abspath dst_path <> abspath src_path ->
  fs (abspath patch_path) = Some patch_data ->
  file_patch src_path dst_path patch_path fs
  = let fs1 := put fs (abspath dst_path) [] in
    match fs1 (abspath src_path), fs1 (abspath patch_path) with
    | None, _ => (inl (FileNotFoundError src_path), fs1)
    | Some data, Some now_in_patch =>
        match apply_patch data now_in_patch with
        | inl e => (inl e, fs1)
        | inr out => (inr tt, put fs1 (abspath dst_path) (out ++ []))
        end
    | Some data, None => (inl (Raised EngineError), fs1)
    end.
Proof.
  intros Hneq Hp. unfold file_patch.
  apply String.eqb_neq in Hneq. rewrite Hneq.
  rewrite (io_bind_run _ _ _ _ _ (open_rb_some _ _ _ Hp)).
  unfold io_bind at 1, open_wb. cbv zeta.
  set (fs1 := put fs (abspath dst_path) []).
  assert (Hp1 : exists now_in_patch, fs1 (abspath patch_path) = Some now_in_patch).
  { unfold fs1, put. rewrite Hp.
    destruct (String.eqb (abspath patch_path) (abspath dst_path));
      eexists; reflexivity. }
  destruct Hp1 as [now_in_patch Hp1]. rewrite Hp1.
  destruct (fs1 (abspath src_path)) as [data|] eqn:Hs.
  - rewrite (io_bind_run _ _ _ _ _ (read_data_some _ _ _ Hs)).
    unfold io_bind at 1. rewrite (patch_from_some _ _ _ _ Hp1).
    destruct (apply_patch data now_in_patch) as [e|out]; [reflexivity|].
    unfold io_bind, write_at_start, io_ret. unfold fs1 at 1.
    rewrite put_same, skipn_nil. reflexivity.
  - apply io_bind_raise. now apply read_data_none.
Qed.

(** When the two-file [file_patch] raises, the destination has already
    been emptied (or created empty) unless the patch file itself was
    missing: a patch that does not parse, a missing source or an engine
    error all leave an empty destination behind, and nothing else
    changed. *)
Theorem file_patch_failure
    (fs : store) (src_path dst_path patch_path : string) (e : os_exn) :
  abspath dst_path <> abspath src_path ->
  fst (file_patch src_path dst_path patch_path fs) = inl e ->
  snd (file_patch src_path dst_path patch_path fs)
  = match fs (abspath patch_path) with
    | None => fs
    | Some _ => put fs (abspath dst_path) []
    end.
Proof.
  intros Hneq. destruct (fs (abspath patch_path)) as [patch_data|] eqn:Hp.
  - rewrite (file_patch_run _ _ _ _ _ Hneq Hp). cbv zeta.
    destruct (put fs (abspath dst_path) [] (abspath src_path)) as [data|];
      [|reflexivity].
    destruct (put fs (abspath dst_path) [] (abspath patch_path))
      as [now_in_patch|]; [|reflexivity].
    destruct (apply_patch data now_in_patch); [reflexivity | discriminate].
  - intros _. unfold file_patch. apply String.eqb_neq in Hneq. rewrite Hneq.
    rewrite (io_bind_raise _ _ _ _ _ (open_rb_none _ _ Hp)). reflexivity.
Qed.

(** Patching into a separate destination and patching in place give the
    same outcome: for a destination that is neither the source nor the
    patch file, [file_patch] raises exactly when [file_patch_inplace] on
    the source does, with the same error, and when they succeed the
    destination of the one holds what the source of the other holds. *)
Theorem file_patch_agrees_with_inplace
    (fs : store) (src_path dst_path patch_path : string) :
  abspath dst_path <> abspath src_path ->
  abspath dst_path <> abspath patch_path ->
  fst (file_patch src_path dst_path patch_path fs)
  = fst (file_patch_inplace src_path patch_path fs)
  /\ (fst (file_patch src_path dst_path patch_path fs) = inr tt ->
      snd (file_patch src_path dst_path patch_path fs) (abspath dst_path)
      = snd (file_patch_inplace src_path patch_path fs) (abspath src_path)).
Proof.
  intros Hsrc Hpatch.
  destruct (fs (abspath patch_path)) as [patch_data|] eqn:Hp.
  - rewrite (file_patch_run _ _ _ _ _ Hsrc Hp). cbv zeta.
    rewrite !put_other by congruence. rewrite Hp.
    destruct (fs (abspath src_path)) as [data|] eqn:Hs.
    + rewrite (file_patch_inplace_run _ _ _ _ _ Hp Hs).
      destruct (apply_patch data patch_data) as [e|out];
        [split; [reflexivity | discriminate]|].
      cbn [fst snd]. split; [reflexivity|]. intros _.
      rewrite !put_same, app_nil_r.
      now rewrite firstn_app, firstn_all, Nat.sub_diag, app_nil_r.
    + unfold file_patch_inplace.
      rewrite (io_bind_run _ _ _ _ _ (open_rb_some _ _ _ Hp)).
      rewrite (io_bind_raise _ _ _ _ _ (open_rb_none _ _ Hs)).
      split; [reflexivity | discriminate].
  - unfold file_patch, file_patch_inplace.
    apply String.eqb_neq in Hsrc. rewrite Hsrc.
    rewrite !(io_bind_raise _ _ _ _ _ (open_rb_none _ _ Hp)).
    split; [reflexivity | discriminate].
Qed.

Lemma header_read_succeeds : failing_read (Some 8) = false.
Proof.
  unfold failing_read, negative_read, oversized_read.
  now rewrite header_read_fits.
Qed.

Lemma apply_patch_empty (data : bytes) :
  apply_patch data [] = inl (Raised NotABsdiff4Patch).
Proof.
  unfold apply_patch, read_patch_file.
  change (read_patch false (BytesIO []))
    with (@Raise patch_result NotABsdiff4Patch, mkStream [] [Some 8]).
  cbn [find reads]. now rewrite header_read_succeeds.
Qed.

(** Naming the patch file as the destination destroys the patch: the file
    is emptied before it is read, so [file_patch] finds no magic, raises
    the "not a patch" error and leaves the patch file empty. *)
Theorem file_patch_onto_patch_file
    (fs : store) (src_path dst_path patch_path : string)
    (data patch_data : bytes) :
  abspath dst_path = abspath patch_path ->
  abspath dst_path <> abspath src_path ->
  fs (abspath patch_path) = Some patch_data ->
  fs (abspath src_path) = Some data ->
  file_patch src_path dst_path patch_path fs
  = (inl (Raised NotABsdiff4Patch), put fs (abspath patch_path) []).
Proof.
  intros Heq Hneq Hp Hs. rewrite (file_patch_run _ _ _ _ _ Hneq Hp).
  cbv zeta. rewrite Heq in *. rewrite put_same.
  rewrite put_other by congruence. rewrite Hs, apply_patch_empty.
  reflexivity.
Qed.

(** The patch step on a file never accepts bytes that start with the
    legacy magic, as all that [write_patch] writes does. *)
Lemma apply_patch_legacy (data w : bytes) :
  exists e, apply_patch data (BSDIFF_MAGIC ++ w) = inl e.
Proof.
  unfold apply_patch, read_patch_file.
  assert (Hl : is_legacy (firstn 8 (unread (BytesIO (BSDIFF_MAGIC ++ w)))))
    by reflexivity.
  pose proof (read_patch_legacy_raises _ Hl false) as Hraise.
  destruct (read_patch false (BytesIO (BSDIFF_MAGIC ++ w))) as [r fi].
  cbn [fst] in Hraise.
  destruct (find failing_read (reads fi)) as [size|].
  - destruct (negative_read size); now eexists.
  - destruct Hraise as [-> | ->]; now eexists.
Qed.

Lemma file_diff_state
    (fs : store) (src_path dst_path patch_path : string) (src dst : bytes) :
  fs (abspath src_path) = Some src ->
  fs (abspath dst_path) = Some dst ->
  exists w,
    forall q,
      snd (file_diff src_path dst_path patch_path fs) q
      = if String.eqb q (abspath patch_path) then Some (BSDIFF_MAGIC ++ w)
        else fs q.
Proof.
  intros Hs Hd. rewrite (file_diff_run _ _ _ _ _ _ Hs Hd). cbv zeta.
  destruct (write_patch_prefix [] (len dst) (fst (fst (core_diff src dst)))
              (snd (fst (core_diff src dst))) (snd (core_diff src dst)))
    as [w Hw].
  exists w. intros q. cbn [snd]. rewrite Hw. apply put_put.
Qed.

(** The patch file that [file_diff] writes is rejected by [file_patch]:
    after [file_diff] on two existing files, [file_patch] with that patch
    file, the same source and a destination that is neither of them
    raises, and the destination is left empty. *)
Theorem file_diff_then_file_patch
    (fs : store) (src_path dst_path patch_path out_path : string)
    (src dst : bytes) :
  fs (abspath src_path) = Some src ->
  fs (abspath dst_path) = Some dst ->
  abspath out_path <> abspath src_path ->
  abspath out_path <> abspath patch_path ->
  (exists e,
      fst (file_patch src_path out_path patch_path
             (snd (file_diff src_path dst_path patch_path fs))) = inl e)
  /\ snd (file_patch src_path out_path patch_path
            (snd (file_diff src_path dst_path patch_path fs)))
     = put (snd (file_diff src_path dst_path patch_path fs))
         (abspath out_path) [].
Proof.
  intros Hs Hd Hsrc Hpatch.
  destruct (file_diff_state fs src_path dst_path patch_path src dst Hs Hd)
    as [w Hstate].
  set (fs1 := snd (file_diff src_path dst_path patch_path fs)) in *.
  assert (Hp1 : fs1 (abspath patch_path) = Some (BSDIFF_MAGIC ++ w)).
  { rewrite Hstate. now rewrite String.eqb_refl. }
  assert (Hs1 : exists data, fs1 (abspath src_path) = Some data).
  { rewrite Hstate.
    destruct (String.eqb (abspath src_path) (abspath patch_path));
      eexists; [reflexivity | exact Hs]. }
  destruct Hs1 as [data Hs1].
  rewrite (file_patch_run _ _ _ _ _ Hsrc Hp1). cbv zeta.
  rewrite !put_other by congruence. rewrite Hs1, Hp1.
  destruct (apply_patch_legacy data w) as [e ->].
  cbn [fst snd]. split; [now exists e | reflexivity].
Qed.

Lemma find_none_all {A} (f : A -> bool) (l : list A) :
  (forall x, In x l -> f x = false) -> find f l = None.
Proof.
  induction l as [|x l IH]; intros H; [reflexivity|].
  cbn [find]. rewrite (H x (or_introl eq_refl)).
  apply IH. intros y Hy. apply H. now right.
Qed.

Lemma read_patch_no_failing_read (patch_data : bytes) :
  (forall n, decode_int64 (slice patch_data 8 16) = Some n ->
             -1 <= n /\ too_large n = false) ->
  (forall n, decode_int64 (slice patch_data 16 24) = Some n ->
             -1 <= n /\ too_large n = false) ->
  find failing_read (reads (snd (read_patch false (BytesIO patch_data))))
  = None.
Proof.
  intros Hc Hd.
  destruct (read_patch_trace false (BytesIO patch_data))
    as (suffix & -> & Hsuffix).
  cbn [BytesIO reads app]. apply find_none_all. intros s Hin.
  destruct (Hsuffix s Hin) as [->|[->|[(n & -> & Hn)|(n & -> & Hn)]]].
  - apply header_read_succeeds.
  - reflexivity.
  - apply Hc in Hn as [Hn Hfit]. unfold failing_read. cbn.
    rewrite Hfit. apply orb_false_intro; [apply Z.ltb_ge; lia | reflexivity].
  - apply Hd in Hn as [Hn Hfit]. unfold failing_read. cbn.
    rewrite Hfit. apply orb_false_intro; [apply Z.ltb_ge; lia | reflexivity].
Qed.

(** The file functions patch the way [patch] does, unless a declared block
    length makes a read of the file raise where the read of bytes does
    not: when neither of the two declared block lengths of the patch file
    is below -1 or too large for a buffer to be had, the patch step on a
    file that holds [patch_data] returns what [patch(data, patch_data)]
    returns and raises what it raises. *)
Theorem apply_patch_agrees_with_patch (data patch_data : bytes) :
  (forall n, decode_int64 (slice patch_data 8 16) = Some n ->
             -1 <= n /\ too_large n = false) ->
  (forall n, decode_int64 (slice patch_data 16 24) = Some n ->
             -1 <= n /\ too_large n = false) ->
  apply_patch data patch_data
  = match patch data patch_data with
    | inl e => inl (Raised e)
    | inr out => inr out
    end.
Proof.
  intros Hc Hd. unfold apply_patch, read_patch_file, patch.
  pose proof (read_patch_no_failing_read _ Hc Hd) as Hnone.
  destruct (read_patch false (BytesIO patch_data)) as [r fi].
  cbn [fst snd] in *. rewrite Hnone.
  destruct r as [e|[lc ld lt tc|lt tc bd be]]; reflexivity.
Qed.

End Facts.

End FileFacts.

(* ================================================================= *)
(** ** The codec on the example containers *)

Import Reference.

Lemma offtin_rejects (b : bytes) : length b <> 8%nat -> offtin b = None.
Proof.
  intros H.
  do 9 (destruct b as [|? b];
        [first [reflexivity | exfalso; apply H; reflexivity]|]).
  reflexivity.
Qed.

(** The full parse of the brotli container. *)
Example read_brotli_container :
  read_patch false (BytesIO brotli_container)
  = (Ok (Full 5 [(0, 5, 0)] [] hello),
     mkStream [] [Some 8; Some 8; Some 8; Some 8; Some 28; Some 1; None]).
Proof. vm_compute. reflexivity. Qed.

(** The integer codec of the examples on a few values. *)
Example offtin_offtout :
  map (fun n => offtin (offtout n)) [0; 5; 100; -2; 70000; - 2 ^ 62]
  = map Some [0; 5; 100; -2; 70000; - 2 ^ 62].
Proof. vm_compute. reflexivity. Qed.

(** The versioned test looks at four bytes only. *)
Example read_near_versioned_container :
  fst (read_patch false (BytesIO near_versioned_container))
  = Ok (Full 5 [(0, 5, 0)] [] hello).
Proof. vm_compute. reflexivity. Qed.

(** The legacy container stops at the control channel. *)
Example read_legacy_container :
  read_patch false (BytesIO legacy_container)
  = (Raise TypeError,
     mkStream (bz2_empty ++ bz2_empty)
       [Some 8; Some 8; Some 8; Some 8; Some 14]).
Proof. vm_compute. reflexivity. Qed.

(** The uncompressed container stops before its control block is read. *)
Example read_identity_container :
  read_patch false (BytesIO identity_container)
  = (Raise AttributeError, mkStream hello [Some 8; Some 8; Some 8; Some 8]).
Proof. vm_compute. reflexivity. Qed.


(** A header that matches neither magic and is parsed all the same: the
    fifth byte of the versioned magic is not looked at. *)
Lemma near_magic_accepted :
  ~ matches_versioned_magic (firstn 8 near_versioned_container)
  /\ ~ matches_legacy_magic (firstn 8 near_versioned_container)
  /\ fst (read_patch false (BytesIO near_versioned_container))
     = Ok (Full 5 [(0, 5, 0)] [] hello)
  /\ reads (snd (read_patch false (BytesIO near_versioned_container)))
     = [Some 8; Some 8; Some 8; Some 8; Some 28; Some 1; None].
Proof.
  repeat split; vm_compute; reflexivity || discriminate.
Qed.

(** A target length that does not encode: [write_patch] raises after the
    magic and two of the three fields, 24 bytes, were written. *)
Lemma write_patch_overflow :
  write_patch (2 ^ 63) [] [] [] []
  = (Raise OverflowError, BSDIFF_MAGIC ++ offtout 14 ++ offtout 14)
  /\ length (snd (write_patch (2 ^ 63) [] [] [] [])) = 24%nat.
Proof.
  split; vm_compute; reflexivity.
Qed.

Lemma read_patch_unknown_magic_witness :
  read_patch true (BytesIO gzip_file)
  = (Raise NotABsdiff4Patch, mkStream (skipn 8 gzip_file) [Some 8])
  /\ ~ is_versioned (firstn 8 gzip_file)
  /\ ~ is_legacy (firstn 8 gzip_file).
Proof.
  destruct (read_patch_unknown_magic true (BytesIO gzip_file))
    as (Hraise & Honly & _).
  assert (Hv : ~ is_versioned (firstn 8 (unread (BytesIO gzip_file))))
    by (vm_compute; discriminate).
  assert (Hl : ~ is_legacy (firstn 8 (unread (BytesIO gzip_file))))
    by (vm_compute; discriminate).
  split; [exact (Hraise Hv Hl)|].
  apply Honly. rewrite (Hraise Hv Hl). reflexivity.
Defined.

Lemma write_patch_layout_witness :
  write_patch 0 [] [] [] [] = (Ok tt, legacy_container)
  /\ fst (write_patch (2 ^ 63) [] [] [] []) = Raise OverflowError.
Proof.
  destruct (write_patch_layout [] 0 [] [] []) as [Hok _].
  destruct (write_patch_layout [] (2 ^ 63) [] [] []) as [_ Hraise].
  assert (Hfits : encodable 0 [] [] = true) by reflexivity.
  assert (Hover : encodable (2 ^ 63) [] [] = false) by reflexivity.
  split.
  - exact (proj1 (Hok Hfits)).
  - exact (proj1 (Hraise Hover)).
Defined.

Lemma patch_diff_raises_witness :
  diff [] [] = Ok legacy_container
  /\ patch [] legacy_container = Raise TypeError.
Proof.
  destruct (patch_diff_raises [] []) as (Hraises & _ & _).
  assert (Hd : diff [] [] = Ok legacy_container) by (vm_compute; reflexivity).
  split; [exact Hd|].
  destruct (Hraises _ Hd) as [Ht|Hi]; [exact Ht|].
  vm_compute in Hi. discriminate Hi.
Defined.

Lemma read_patch_unsupported_selector_witness :
  exists v, ~ 0 <= v <= 2
    /\ read_patch false (BytesIO bad_selector_container)
       = (Raise (InvalidCompressionType v),
          after_magic (BytesIO bad_selector_container)).
Proof.
  apply (read_patch_unsupported_selector false
           (BytesIO bad_selector_container) 6 x07).
  - reflexivity.
  - lia.
  - reflexivity.
  - vm_compute. intros [_ H]. apply H. reflexivity.
Defined.

Lemma read_patch_format_dispatch_witness :
  read_patch false (BytesIO block_diff_container)
  = read_blocks (BrotliModule, BZ2DecompressorClass, BrotliModule) false
      (after_magic (BytesIO block_diff_container))
  /\ read_patch false (BytesIO legacy_container)
     = read_blocks
         (BZ2DecompressorClass, BZ2DecompressorClass, BZ2DecompressorClass)
         false (after_magic (BytesIO legacy_container)).
Proof.
  split.
  - apply (proj1 (read_patch_format_dispatch false
                    (BytesIO block_diff_container))
             eq_refl Brotli BZ2 Brotli).
    + exists x02. split; reflexivity.
    + exists x01. split; reflexivity.
    + exists x02. split; reflexivity.
  - apply (proj2 (read_patch_format_dispatch false (BytesIO legacy_container))
             eq_refl).
Defined.

Lemma read_patch_block_channel_raises_witness :
  (exists e, fst (read_patch false (BytesIO legacy_container)) = Raise e)
  /\ (exists e, fst (read_patch false (BytesIO block_diff_container)) = Raise e).
Proof.
  split.
  - refine (proj1 (proj2 (read_patch_block_channel_raises
                            (BytesIO legacy_container) _))).
    left. reflexivity.
  - refine (proj1 (proj2 (read_patch_block_channel_raises
                            (BytesIO block_diff_container) _))).
    right. split; [reflexivity|].
    exists 6%nat. split; [lia|]. exists x01. split; reflexivity.
Defined.

Lemma read_patch_identity_channel_raises_witness :
  (exists e, fst (read_patch true (BytesIO identity_container)) = Raise e)
  /\ (exists e, fst (read_patch false (BytesIO identity_container)) = Raise e).
Proof.
  assert (Hv : is_versioned (firstn 8 (unread (BytesIO identity_container))))
    by reflexivity.
  assert (Hk : (5 <= 5 <= 7)%nat) by lia.
  assert (Hsel : selects (firstn 8 (unread (BytesIO identity_container))) 5
                   NoCompression)
    by (exists x00; split; reflexivity).
  pose proof (read_patch_identity_channel_raises
                (BytesIO identity_container) 5 Hv Hk Hsel) as (_ & _ & H).
  split; apply (H eq_refl).
Defined.

Lemma read_patch_ragged_control_witness :
  fst (read_patch true (BytesIO ragged_container)) = Raise Int64Error.
Proof.
  refine (f_equal fst
            (read_patch_ragged_control true (BytesIO ragged_container)
               (snd (read_control_block (BytesIO ragged_container))) hello
               offtin_rejects _ _)).
  - vm_compute. reflexivity.
  - vm_compute. discriminate.
Defined.

Lemma header_only_consistent_witness :
  exists len_control len_diff,
    fst (read_patch true (BytesIO brotli_container))
    = Ok (HeaderOnly len_control len_diff 5 [(0, 5, 0)])
    /\ decode_int64 (slice brotli_container 8 16) = Some len_control
    /\ decode_int64 (slice brotli_container 16 24) = Some len_diff
    /\ decode_int64 (slice brotli_container 24 32) = Some 5.
Proof.
  apply (header_only_consistent (BytesIO brotli_container) 5 [(0, 5, 0)]
           [] hello).
  vm_compute. reflexivity.
Defined.


(* ================================================================= *)
(** ** The further properties on the examples *)

Lemma parse_control_flatten_witness :
  parse_control (flatten_control [(0, 5, 0); (-3, 70000, 12)])
  = Ok [(0, 5, 0); (-3, 70000, 12)].
Proof.
  apply parse_control_flatten.
  repeat (apply Forall_cons || apply Forall_nil);
    vm_compute; repeat split; reflexivity.
Defined.

Lemma parse_control_exact_witness :
  length control_buffer = (24 * length [(0, 5, 0)])%nat.
Proof.
  refine (proj1 (parse_control_exact control_buffer [(0, 5, 0)]
                   offtin_rejects _)).
  vm_compute. reflexivity.
Defined.

Lemma read_patch_well_formed_witness :
  read_patch false
    (BytesIO (brotli_magic ++ offtout 28 ++ offtout 1 ++ offtout 5
              ++ control_block ++ [x06] ++ extra_block))
  = (Ok (Full 5 [(0, 5, 0)] [] hello),
     mkStream []
       [Some 8; Some 8; Some 8; Some 8; Some (len control_block);
        Some (len [x06]); None]).
Proof.
  apply (read_patch_well_formed brotli_magic (offtout 28) (offtout 1)
           (offtout 5) control_block [x06] extra_block 5 control_buffer);
    try reflexivity; exists x02; split; reflexivity.
Defined.

Lemma patch_well_formed_witness :
  patch (list_byte_of_string "HELLO, old"%string)
    (brotli_magic ++ offtout 28 ++ offtout 1 ++ offtout 5
     ++ control_block ++ [x06] ++ extra_block)
  = core_patch (list_byte_of_string "HELLO, old"%string) 5 [(0, 5, 0)] []
      hello.
Proof.
  apply (patch_well_formed _ brotli_magic (offtout 28) (offtout 1)
           (offtout 5) control_block [x06] extra_block 5 control_buffer);
    try reflexivity; exists x02; split; reflexivity.
Defined.

Lemma read_patch_header_only_run_witness :
  read_patch true
    (mkStream
       ((list_byte_of_string "BSDF2"%string ++ [x02; x01; x00])
        ++ offtout 28 ++ offtout (-7) ++ offtout 5
        ++ control_block ++ bz2_empty) [])
  = (Ok (HeaderOnly (len control_block) (-7) 5 [(0, 5, 0)]),
     mkStream bz2_empty
       ([] ++ [Some 8; Some 8; Some 8; Some 8; Some (len control_block)])).
Proof.
  apply (read_patch_header_only_run
           (list_byte_of_string "BSDF2"%string ++ [x02; x01; x00])
           (offtout 28) (offtout (-7)) (offtout 5) control_block bz2_empty []
           BZ2 NoCompression (-7) 5 control_buffer);
    try reflexivity.
  - exists x02. split; reflexivity.
  - exists x01. split; reflexivity.
  - exists x00. split; reflexivity.
Defined.

Lemma read_brotli_container_run :
  read_patch false (BytesIO brotli_container)
  = (Ok (Full 5 [(0, 5, 0)] [] hello),
     snd (read_patch false (BytesIO brotli_container))).
Proof. vm_compute. reflexivity. Qed.

Lemma read_brotli_container_header_run :
  read_patch true (BytesIO brotli_container)
  = (Ok (HeaderOnly 28 1 5 [(0, 5, 0)]),
     snd (read_patch true (BytesIO brotli_container))).
Proof. vm_compute. reflexivity. Qed.

Lemma read_patch_ok_selectors_witness :
  is_versioned (firstn 8 brotli_container)
  /\ (8 <= length brotli_container)%nat
  /\ selects (firstn 8 brotli_container) 5 Brotli.
Proof.
  pose proof (read_patch_ok_selectors false (BytesIO brotli_container) _ _
                read_brotli_container_run) as (Hv & Hlen & H5 & _).
  exact (conj Hv (conj Hlen H5)).
Defined.

Lemma read_patch_full_consumes_witness :
  exists len_control len_diff,
    decode_int64 (slice brotli_container 8 16) = Some len_control
    /\ decode_int64 (slice brotli_container 16 24) = Some len_diff
    /\ unread (snd (read_patch false (BytesIO brotli_container))) = []
    /\ reads (snd (read_patch false (BytesIO brotli_container)))
       = [] ++ [Some 8; Some 8; Some 8; Some 8;
                Some len_control; Some len_diff; None].
Proof.
  exact (read_patch_full_consumes (BytesIO brotli_container) _ _
           read_brotli_container_run).
Defined.

Lemma read_patch_header_only_position_witness :
  exists len_control,
    decode_int64 (slice brotli_container 8 16) = Some len_control
    /\ unread (snd (read_patch true (BytesIO brotli_container)))
       = skipn (read_count (Some len_control) (length brotli_container - 32))
           (skipn 32 brotli_container)
    /\ reads (snd (read_patch true (BytesIO brotli_container)))
       = [] ++ [Some 8; Some 8; Some 8; Some 8; Some len_control].
Proof.
  exact (read_patch_header_only_position (BytesIO brotli_container) _ _
           read_brotli_container_header_run).
Defined.

Lemma read_patch_short_versioned_witness :
  read_patch true (BytesIO (list_byte_of_string "BSDF2"%string ++ [x02]))
  = (Raise IndexError,
     after_magic (BytesIO (list_byte_of_string "BSDF2"%string ++ [x02]))).
Proof.
  apply read_patch_short_versioned.
  - reflexivity.
  - cbn. lia.
  - intros k sel Hk Hnth.
    do 6 (destruct k as [|k]; [try lia|]).
    + injection Hnth as <-. vm_compute. split; discriminate.
    + destruct k; discriminate Hnth.
Defined.

Lemma file_diff_writes_diff_witness :
  fst (Files.file_diff "a.bin" "b.bin" "new.patch" example_store) = inr tt
  /\ snd (Files.file_diff "a.bin" "b.bin" "new.patch" example_store)
       "/work/new.patch"%string
     = Some legacy_container.
Proof.
  assert (Hs : example_store (abspath "a.bin") = Some []) by reflexivity.
  assert (Hd : example_store (abspath "b.bin") = Some []) by reflexivity.
  pose proof (FileFacts.file_diff_writes_diff example_store
                "a.bin" "b.bin" "new.patch" [] [] Hs Hd) as H.
  assert (Hdiff : diff [] [] = Ok legacy_container)
    by (vm_compute; reflexivity).
  rewrite Hdiff in H. destruct H as [Hfst Hsnd].
  split; [exact Hfst|]. rewrite Hsnd. reflexivity.
Defined.

Lemma file_diff_missing_input_witness :
  fst (Files.file_diff "a.bin" "zz.bin" "legacy.patch" example_store)
  = inl (Files.FileNotFoundError "zz.bin")
  /\ snd (Files.file_diff "a.bin" "zz.bin" "legacy.patch" example_store)
     = example_store.
Proof.
  assert (H : example_store (abspath "a.bin") = None
              \/ example_store (abspath "zz.bin") = None)
    by (right; reflexivity).
  rewrite (FileFacts.file_diff_missing_input example_store
             "a.bin" "zz.bin" "legacy.patch" H).
  split; reflexivity.
Defined.

Lemma file_patch_inplace_failure_witness :
  snd (Files.file_patch_inplace "old.bin" "legacy.patch" example_store)
  = example_store.
Proof.
  assert (Hfail : fst (Files.file_patch_inplace "old.bin" "legacy.patch"
                         example_store) = inl (Files.Raised TypeError))
    by (vm_compute; reflexivity).
  exact (FileFacts.file_patch_inplace_failure example_store
           "old.bin" "legacy.patch" _ Hfail).
Defined.

Lemma file_patch_inplace_success_witness :
  fst (Files.file_patch_inplace "old.bin" "brotli.patch" example_store)
  = inr tt
  /\ snd (Files.file_patch_inplace "old.bin" "brotli.patch" example_store)
       "/work/old.bin"%string
     = Some hello.
Proof.
  assert (Hp : example_store (abspath "brotli.patch") = Some brotli_container)
    by reflexivity.
  assert (Hd : example_store (abspath "old.bin")
               = Some (list_byte_of_string "HELLO, old"%string))
    by reflexivity.
  assert (Hout : Files.apply_patch (list_byte_of_string "HELLO, old"%string)
                   brotli_container = inr hello)
    by (vm_compute; reflexivity).
  destruct (FileFacts.file_patch_inplace_success example_store
              "old.bin" "brotli.patch" _ _ _ Hp Hd Hout) as [Hfst Hsnd].
  split; [exact Hfst|]. rewrite Hsnd. reflexivity.
Defined.

Lemma file_patch_failure_witness :
  snd (Files.file_patch "old.bin" "out.bin" "legacy.patch" example_store)
  = Files.put example_store "/work/out.bin" [].
Proof.
  assert (Hneq : abspath "out.bin" <> abspath "old.bin")
    by (vm_compute; discriminate).
  assert (Hfail : fst (Files.file_patch "old.bin" "out.bin" "legacy.patch"
                         example_store) = inl (Files.Raised TypeError))
    by (vm_compute; reflexivity).
  exact (FileFacts.file_patch_failure example_store
           "old.bin" "out.bin" "legacy.patch" _ Hneq Hfail).
Defined.

Lemma file_patch_agrees_with_inplace_witness :
  fst (Files.file_patch "old.bin" "out.bin" "brotli.patch" example_store)
  = fst (Files.file_patch_inplace "old.bin" "brotli.patch" example_store).
Proof.
  assert (Hsrc : abspath "out.bin" <> abspath "old.bin")
    by (vm_compute; discriminate).
  assert (Hpatch : abspath "out.bin" <> abspath "brotli.patch")
    by (vm_compute; discriminate).
  exact (proj1 (FileFacts.file_patch_agrees_with_inplace example_store
                  "old.bin" "out.bin" "brotli.patch" Hsrc Hpatch)).
Defined.

Lemma file_patch_onto_patch_file_witness :
  Files.file_patch "old.bin" "brotli.patch" "/work/brotli.patch"
    example_store
  = (inl (Files.Raised NotABsdiff4Patch),
     Files.put example_store "/work/brotli.patch" []).
Proof.
  assert (Heq : abspath "brotli.patch" = abspath "/work/brotli.patch")
    by reflexivity.
  assert (Hneq : abspath "brotli.patch" <> abspath "old.bin")
    by (vm_compute; discriminate).
  assert (Hp : example_store (abspath "/work/brotli.patch")
               = Some brotli_container) by reflexivity.
  assert (Hs : example_store (abspath "old.bin")
               = Some (list_byte_of_string "HELLO, old"%string))
    by reflexivity.
  exact (FileFacts.file_patch_onto_patch_file example_store
           "old.bin" "brotli.patch" "/work/brotli.patch" _ _ Heq Hneq Hp Hs).
Defined.

Lemma file_diff_then_file_patch_witness :
  exists e,
    fst (Files.file_patch "a.bin" "out.bin" "new.patch"
           (snd (Files.file_diff "a.bin" "b.bin" "new.patch" example_store)))
    = inl e.
Proof.
  assert (Hs : example_store (abspath "a.bin") = Some []) by reflexivity.
  assert (Hd : example_store (abspath "b.bin") = Some []) by reflexivity.
  assert (Hsrc : abspath "out.bin" <> abspath "a.bin")
    by (vm_compute; discriminate).
  assert (Hpatch : abspath "out.bin" <> abspath "new.patch")
    by (vm_compute; discriminate).
  exact (proj1 (FileFacts.file_diff_then_file_patch example_store
                  "a.bin" "b.bin" "new.patch" "out.bin" [] []
                  Hs Hd Hsrc Hpatch)).
Defined.

Lemma apply_patch_agrees_with_patch_witness :
  Files.apply_patch [] legacy_container
  = match patch [] legacy_container with
    | inl e => inl (Files.Raised e)
    | inr out => inr out
    end.
Proof.
  apply FileFacts.apply_patch_agrees_with_patch;
    intros n Hn; vm_compute in Hn; injection Hn as <-;
    (split; [lia | reflexivity]).
Defined.

Lemma read_patch_header_error_shared_witness :
  read_patch false (BytesIO ragged_container)
  = (Raise Int64Error, snd (read_patch true (BytesIO ragged_container))).
Proof.
  apply read_patch_header_error_shared. vm_compute. reflexivity.
Defined.
